(** * Jurassic Parking: the billing pipeline of [index.js]

    A shallow embedding of the four stages of [index.js]
    ([calculateServiceFees], [assignJobLoads], [addEmployeeCommission],
    [makeMePretty]) and of their orchestrator [jurassicParking].

    Modelling conventions.
    - An object of the program is a record with the keys the program reads
      and writes; the keys of a vehicle ([licencePlate], [size], [fuel]),
      of the two fee fields ([fuelAdded], [netTotal]) and of an employee
      ([name], [commissionPct], [numJobs]) are pairwise different, so the
      spreads [{...car, ...}], [{...emp, numJobs}] and [{...emp, ...job}]
      never overwrite a key and are modelled by nesting the spread record.
      The object literal that [makeMePretty] returns is the output of the
      program and is kept as the ordered list of its keys and values.
    - A decimal (a BigNumber, or a JavaScript number written as a decimal
      literal and passed through [toBN]) is a rational of [Q]; [plus],
      [minus] and [multipliedBy] are exact, [dividedBy] rounds to
      [DECIMAL_PLACES] with [ROUND_HALF_UP], as line 5 of [index.js]
      configures the library.  Equality of decimals is [Qeq] ([==]).
    - An [async] function that throws is a function that returns [Throw];
      one that returns is [Return].
    - A JavaScript array is a mutable cell.  [map] builds a new cell and
      leaves its receiver alone; [sort] and [splice] change their receiver.
      A stage is given the contents of the cells it receives and returns
      the contents they hold afterwards next to its completion. *)

From Stdlib Require Import List String ZArith QArith Qround Qabs Bool Lia
  Lqa Permutation Sorted.
Import ListNotations.
Local Open Scope string_scope.
Local Open Scope list_scope.
Local Open Scope Q_scope.

Set Implicit Arguments.

(** ** JavaScript: completions, numbers, arrays *)

Module JS.

Inductive exn : Type :=
| TypeError (message : string)
| Error (message : string).

Inductive completion (A : Type) : Type :=
| Return (a : A)
| Throw (e : exn).
Arguments Return {A} a.
Arguments Throw {A} e.

Definition bind {A B} (c : completion A) (k : A -> completion B)
  : completion B :=
  match c with
  | Return a => k a
  | Throw e => Throw e
  end.

(** The numbers of the chunk computation: quotients of array lengths and
    what IEEE arithmetic makes of a division by zero.  Lengths are below
    2^32, where the double operations used here ([/], [Math.floor], [%],
    [*], [-], the comparisons) agree with the exact ones. *)
Inductive number : Type :=
| Num (q : Q)
| Infinity
| NegInfinity
| NaN.

Definition of_nat (n : nat) : number := Num (inject_Z (Z.of_nat n)).
Definition of_bool (b : bool) : number := Num (if b then 1 else 0).

Definition Qlt_bool (x y : Q) : bool := negb (Qle_bool y x).

(** [!x]: true for 0 and NaN. *)
Definition not (x : number) : bool :=
  match x with
  | Num q => Qeq_bool q 0
  | NaN => true
  | _ => false
  end.

(** [x / y]. *)
Definition div (x y : number) : number :=
  match x, y with
  | NaN, _ | _, NaN => NaN
  | Num p, Num q =>
      if Qeq_bool q 0 then
        if Qeq_bool p 0 then NaN
        else if Qlt_bool 0 p then Infinity else NegInfinity
      else Num (p / q)
  | Num _, _ => Num 0
  | Infinity, Num q => if Qlt_bool q 0 then NegInfinity else Infinity
  | NegInfinity, Num q => if Qlt_bool q 0 then Infinity else NegInfinity
  | _, _ => NaN
  end.

(** [x % y]: the remainder has the sign of the dividend. *)
Definition rem (x y : number) : number :=
  match x, y with
  | Num p, Num q =>
      if Qeq_bool q 0 then NaN
      else Num (p - q * inject_Z (Z.quot (Qnum (p / q)) (Zpos (Qden (p / q)))))
  | Num p, (Infinity | NegInfinity) => Num p
  | _, _ => NaN
  end.

(** [x * y]. *)
Definition mul (x y : number) : number :=
  match x, y with
  | NaN, _ | _, NaN => NaN
  | Num p, Num q => Num (p * q)
  | Num p, Infinity | Infinity, Num p =>
      if Qeq_bool p 0 then NaN
      else if Qlt_bool 0 p then Infinity else NegInfinity
  | Num p, NegInfinity | NegInfinity, Num p =>
      if Qeq_bool p 0 then NaN
      else if Qlt_bool 0 p then NegInfinity else Infinity
  | Infinity, Infinity | NegInfinity, NegInfinity => Infinity
  | _, _ => NegInfinity
  end.

(** [x - y]. *)
Definition sub (x y : number) : number :=
  match x, y with
  | NaN, _ | _, NaN => NaN
  | Num p, Num q => Num (p - q)
  | Num _, Infinity => NegInfinity
  | Num _, NegInfinity => Infinity
  | Infinity, Infinity | NegInfinity, NegInfinity => NaN
  | Infinity, _ => Infinity
  | NegInfinity, _ => NegInfinity
  end.

(** [x + y]. *)
Definition add (x y : number) : number :=
  match x, y with
  | NaN, _ | _, NaN => NaN
  | Num p, Num q => Num (p + q)
  | Num _, Infinity => Infinity
  | Num _, NegInfinity => NegInfinity
  | Infinity, NegInfinity | NegInfinity, Infinity => NaN
  | Infinity, _ => Infinity
  | NegInfinity, _ => NegInfinity
  end.

(** [x > y]. *)
Definition gt (x y : number) : bool :=
  match x, y with
  | NaN, _ | _, NaN => false
  | Num p, Num q => Qlt_bool q p
  | Infinity, (Num _ | NegInfinity) => true
  | Num _, NegInfinity => true
  | _, _ => false
  end.

(** [x === y]. *)
Definition strict_eq (x y : number) : bool :=
  match x, y with
  | Num p, Num q => Qeq_bool p q
  | Infinity, Infinity | NegInfinity, NegInfinity => true
  | _, _ => false
  end.

(** [Math.floor(x)]. *)
Definition floor (x : number) : number :=
  match x with
  | Num q => Num (inject_Z (Qfloor q))
  | other => other
  end.

(** What [ToNumber] makes of a decimal, as far as its sign goes.  The
    nearest double of a decimal [d] is 0 when [|d| <= 2^-1075] (half the
    least positive double, a tie going to the even 0) and has the sign of
    [d] otherwise.  [signOfToNumber d] is 0 in the first case and [d] in
    the second: a number with the sign of the double. *)
Definition underflow : Q := 1 # (2 ^ 1075).

Definition signOfToNumber (d : Q) : Q :=
  if Qle_bool (Qabs d) underflow then 0 else d.

(** The number of elements [splice(0, n)] removes from an array of
    length [len]: [n] truncated to an integer (NaN counts as 0) and
    clamped to [0 .. len]. *)
Definition deleteCount (n : number) (len : nat) : nat :=
  match n with
  | Num q => Nat.min (Z.to_nat (Z.quot (Qnum q) (Zpos (Qden q)))) len
  | Infinity => len
  | NegInfinity | NaN => O
  end.

End JS.

Module Array.

Section Methods.
Context {A : Type}.

(** [arr.map(f)] for a callback that may throw: the results in order
    in a new array, or the first exception; [arr] is not changed. *)
Fixpoint map {B} (f : A -> JS.completion B) (arr : list A)
  : JS.completion (list B) :=
  match arr with
  | [] => JS.Return []
  | x :: rest =>
      JS.bind (f x) (fun y =>
      JS.bind (map f rest) (fun ys => JS.Return (y :: ys)))
  end.

(** [arr.sort(compare)] is stable (ECMAScript 2019 on, so Node 14 as
    the README requires) and sorts [arr] itself: with a comparator
    that is the sign of a difference of keys, the contents of the cell
    afterwards are the one stable sorting of its contents before.  An
    element [x] is moved behind [y] only when [compare x y > 0].  With a
    comparator that is not consistent on the array (one that reads two
    different keys as equal and both as different from a third) the
    language leaves the order to the engine: of the result below only
    its being a permutation of [arr] is then meant. *)
Fixpoint insert (compare : A -> A -> Q) (x : A) (sorted : list A)
  : list A :=
  match sorted with
  | [] => [x]
  | y :: rest =>
      if JS.Qlt_bool 0 (compare x y) then y :: insert compare x rest
      else x :: y :: rest
  end.

Definition sort (compare : A -> A -> Q) (arr : list A) : list A :=
  fold_right (insert compare) [] arr.

(** [arr.splice(0, n)]: the removed elements (a new array) and what
    [arr] holds afterwards. *)
Definition splice0 (n : JS.number) (arr : list A) : list A * list A :=
  let k := JS.deleteCount n (List.length arr) in
  (firstn k arr, skipn k arr).

End Methods.

End Array.

(** ** bignumber.js, configured with
    [{ DECIMAL_PLACES: 5, ROUNDING_MODE: ROUND_HALF_UP }] *)

Module BigNumber.

Definition DECIMAL_PLACES : nat := 5.

Definition plus (x y : Q) : Q := x + y.
Definition minus (x y : Q) : Q := x - y.
Definition multipliedBy (x y : Q) : Q := x * y.
Definition times := multipliedBy.

Definition isLessThan (x y : Q) : bool := JS.Qlt_bool x y.
Definition isLessThanOrEqualTo (x y : Q) : bool := Qle_bool x y.
Definition isGreaterThanOrEqualTo (x y : Q) : bool := Qle_bool y x.

(** [10^dp] *)
Definition scale (dp : nat) : Q := inject_Z (10 ^ Z.of_nat dp).

(** ROUND_HALF_UP: to the nearest multiple of [10^-dp], a tie going away
    from zero. *)
Definition round_half_up (dp : nat) (x : Q) : Q :=
  let v := x * scale dp in
  if Qle_bool 0 v then inject_Z (Qfloor (v + (1 # 2))) / scale dp
  else - (inject_Z (Qfloor (- v + (1 # 2))) / scale dp).

(** [x.dividedBy(y)]: the quotient rounded to [DECIMAL_PLACES].  (The
    program divides by 100 only; a zero divisor is not modelled.) *)
Definition dividedBy (x y : Q) : Q := round_half_up DECIMAL_PLACES (x / y).

End BigNumber.

(** ** The data model *)

Record Fuel : Type := { capacity : Q; level : Q }.

Record Vehicle : Type :=
  { licencePlate : string; size : string; fuel : Fuel }.

(** An entry of [parkingRates] ([./params]). *)
Record ParkingRate : Type := { rate_size : string; rate : Q }.

(** [{ ...car, fuelAdded, netTotal }] *)
Record PricedJob : Type :=
  { car : Vehicle; fuelAdded : Q; netTotal : Q }.

Record Employee : Type := { name : string; commissionPct : Q }.

(** [{ ...emp, numJobs }] *)
Record JobLoad : Type := { emp : Employee; numJobs : JS.number }.

(** [{ ...emp, ...job }] *)
Record AssignedJob : Type := { load : JobLoad; job : PricedJob }.

(** [{ ...job, totalToPay }] *)
Record PayableJob : Type := { assigned : AssignedJob; totalToPay : Q }.

(** What [console.warn] is called with in [addEmployeeCommission]: the
    message names the percentage and the employee. *)
Inductive warning : Type :=
| CommissionOutOfRange (empCommission : Q) (employee_name : string).

(** A value of the object [makeMePretty] returns. *)
Inductive value (number : Type) : Type :=
| VString (s : string)
| VNumber (n : number).
Arguments VString {number} s.
Arguments VNumber {number} n.

Definition object (number : Type) : Type := list (string * value number).

Definition keys {number} (o : object number) : list string := List.map fst o.

Fixpoint get {number} (key : string) (o : object number)
  : option (value number) :=
  match o with
  | [] => None
  | (k, v) :: rest => if String.eqb k key then Some v else get key rest
  end.

(** What a call leaves behind: its completion, the contents afterwards of
    the arrays it was given, and what it wrote with [console.warn]. *)
Record Run (Cells Out : Type) : Type :=
  { result : JS.completion Out;
    cells : Cells;
    console : list warning }.

(** ** Stage 1: [calculateServiceFees] *)

Section Fees.

(** [parkingRates] and [fuelPricePerUnit] come from [./params]. *)
Variable parkingRates : list ParkingRate.
Variable fuelPricePerUnit : Q.

Record FuelData : Type := { unitsToFuel : Q; totalFuelPrice : Q }.

Definition fuelPct (c : Vehicle) : Q :=
  BigNumber.multipliedBy (level (fuel c)) 100.

Definition needsRefuel (c : Vehicle) : bool :=
  BigNumber.isLessThanOrEqualTo (fuelPct c) 10
  && BigNumber.isGreaterThanOrEqualTo (fuelPct c) 0.

Definition calculateUnitsToFuel (c : Vehicle) : FuelData :=
  let carLevel := level (fuel c) in
  let carCapacity := capacity (fuel c) in
  if needsRefuel c then
    let units :=
      BigNumber.minus carCapacity (BigNumber.multipliedBy carCapacity carLevel) in
    {| unitsToFuel := units;
       totalFuelPrice := BigNumber.multipliedBy units fuelPricePerUnit |}
  else {| unitsToFuel := 0; totalFuelPrice := 0 |}.

(** [parkingRates.filter((x) => x.size === car.size)[0].rate]: reading
    [rate] of [undefined] throws a TypeError. *)
Definition parkingRateOf (c : Vehicle) : JS.completion Q :=
  match filter (fun x => String.eqb (rate_size x) (size c)) parkingRates with
  | [] => JS.Throw (JS.TypeError "Cannot read property 'rate' of undefined")
  | x :: _ => JS.Return (rate x)
  end.

Definition serviceFee (c : Vehicle) : JS.completion PricedJob :=
  JS.bind (parkingRateOf c) (fun parkingRate =>
  let fuelData := calculateUnitsToFuel c in
  let totalToPay := BigNumber.plus (totalFuelPrice fuelData) parkingRate in
  JS.Return {| car := c;
               fuelAdded := unitsToFuel fuelData;
               netTotal := totalToPay |}).

Definition calculateServiceFees (queue : list Vehicle)
  : Run (list Vehicle) (list PricedJob) :=
  {| result := Array.map serviceFee queue;
     cells := queue;
     console := [] |}.

End Fees.

(** ** Stage 2: [assignJobLoads] *)

(** The comparators.  [sort] reads only the sign of what they return.
    For the employees that is the difference of two numbers, whose sign
    is the sign of the exact difference.  For the jobs it is a
    BigNumber, which [sort] turns into a number with [ToNumber]: a
    difference of at most [2^-1075] in size is read as 0. *)
Definition byCommissionPct (a b : Employee) : Q :=
  commissionPct b - commissionPct a.

Definition byNetTotal (a b : PricedJob) : Q :=
  JS.signOfToNumber (BigNumber.minus (netTotal b) (netTotal a)).

(** [chunkSize], from the two lengths. *)
Definition chunkSizeOf (totalJobs totalEmployees : JS.number) : JS.number :=
  let jobsPerEmployee := JS.div totalJobs totalEmployees in
  if JS.gt jobsPerEmployee (JS.Num 1) then JS.floor jobsPerEmployee
  else JS.Num 1.

(** [!totalJobs % totalEmployees === 0]: the negation binds tighter than
    [%], which binds tighter than [===]. *)
Definition isEvenQueueOf (totalJobs totalEmployees : JS.number) : bool :=
  JS.strict_eq (JS.rem (JS.of_bool (JS.not totalJobs)) totalEmployees)
    (JS.Num 0).

(** [jobLoads[0].numJobs += leftoverJobs]; on an empty [jobLoads] the
    assignment reads a property of [undefined]. *)
Definition addToFirst (leftoverJobs : JS.number) (jobLoads : list JobLoad)
  : JS.completion (list JobLoad) :=
  match jobLoads with
  | [] => JS.Throw (JS.TypeError "Cannot read property 'numJobs' of undefined")
  | first :: others =>
      JS.Return ({| emp := emp first;
                    numJobs := JS.add (numJobs first) leftoverJobs |}
                   :: others)
  end.

(** [jobLoads] as the consuming loop finds it. *)
Definition jobLoadsOf (sortedEmployees : list Employee) (totalJobs : nat)
  : JS.completion (list JobLoad) :=
  let totalJobs := JS.of_nat totalJobs in
  let totalEmployees := JS.of_nat (List.length sortedEmployees) in
  let chunkSize := chunkSizeOf totalJobs totalEmployees in
  let jobLoads :=
    List.map (fun e => {| emp := e; numJobs := chunkSize |}) sortedEmployees in
  let isEvenQueue := isEvenQueueOf totalJobs totalEmployees in
  if negb isEvenQueue then
    let leftoverJobs := JS.sub totalJobs (JS.mul chunkSize totalEmployees) in
    if JS.gt leftoverJobs (JS.Num 0) then addToFirst leftoverJobs jobLoads
    else JS.Return jobLoads
  else JS.Return jobLoads.

(** The loop [for (const emp of jobLoads) { ... }]: what [sortedQueue] and
    [jobs] hold when it is left. *)
Fixpoint consume (jobLoads : list JobLoad) (sortedQueue : list PricedJob)
  (jobs : list AssignedJob) : list PricedJob * list AssignedJob :=
  match jobLoads with
  | [] => (sortedQueue, jobs)
  | e :: others =>
      let (empJobs, sortedQueue') := Array.splice0 (numJobs e) sortedQueue in
      let jobs' :=
        jobs ++ List.map (fun j => {| load := e; job := j |}) empJobs in
      if (List.length sortedQueue' =? 0)%nat then (sortedQueue', jobs')
      else consume others sortedQueue' jobs'
  end.

Definition UNASSIGNED : JS.exn := JS.Error "UNASSIGNED JOBS STILL IN QUEUE!!!!".

(** [sortedEmployees] is the array [employees] and [sortedQueue] is the
    array [queue]: [sort] returns its receiver.  The cells afterwards are
    (the employees' array, the queue's array). *)
Definition assignJobLoads (employees : list Employee) (queue : list PricedJob)
  : Run (list Employee * list PricedJob) (list AssignedJob) :=
  let sortedEmployees := Array.sort byCommissionPct employees in
  let sortedQueue := Array.sort byNetTotal queue in
  match jobLoadsOf sortedEmployees (List.length sortedQueue) with
  | JS.Throw e =>
      {| result := JS.Throw e;
         cells := (sortedEmployees, sortedQueue);
         console := [] |}
  | JS.Return jobLoads =>
      let (sortedQueue', jobs) := consume jobLoads sortedQueue [] in
      {| result :=
           if (0 <? List.length sortedQueue')%nat then JS.Throw UNASSIGNED
           else JS.Return jobs;
         cells := (sortedEmployees, sortedQueue');
         console := [] |}
  end.

(** ** Stage 3: [addEmployeeCommission] *)

Definition commissionOf (j : AssignedJob) : PayableJob * list warning :=
  let jobNetTotal := netTotal (job j) in
  let empCommission := commissionPct (emp (load j)) in
  if BigNumber.isLessThan empCommission 0 then
    ({| assigned := j; totalToPay := BigNumber.plus jobNetTotal 0 |},
     [CommissionOutOfRange empCommission (name (emp (load j)))])
  else
    let commissionToPay :=
      BigNumber.dividedBy (BigNumber.times jobNetTotal empCommission) 100 in
    ({| assigned := j; totalToPay := BigNumber.plus jobNetTotal commissionToPay |},
     []).

Definition addEmployeeCommission (jobLoads : list AssignedJob)
  : Run (list AssignedJob) (list PayableJob) :=
  let each := List.map commissionOf jobLoads in
  {| result := JS.Return (List.map fst each);
     cells := jobLoads;
     console := List.concat (List.map snd each) |}.

(** ** Stage 4: [makeMePretty] *)

Section Presenter.

(** [toNumber()] of bignumber.js: the double nearest to the decimal. *)
Variable number : Type.
Variable toNumber : Q -> number.

Definition pretty (j : PayableJob) : object number :=
  [ ("licencePlate", VString (licencePlate (car (job (assigned j)))));
    ("employee", VString (name (emp (load (assigned j)))));
    ("fuelAdded", VNumber (toNumber (fuelAdded (job (assigned j)))));
    ("price", VNumber (toNumber (totalToPay j))) ].

Definition makeMePretty (jobLoads : list PayableJob)
  : Run (list PayableJob) (list (object number)) :=
  {| result := JS.Return (List.map pretty jobLoads);
     cells := jobLoads;
     console := [] |}.

End Presenter.

(** ** The orchestrator [jurassicParking] *)

Section Orchestrator.

Variable parkingRates : list ParkingRate.
Variable fuelPricePerUnit : Q.
Variable number : Type.
Variable toNumber : Q -> number.

(** [employees] is the array exported by [./params]; the cells are
    (that array, the caller's [queue]). *)
Definition jurassicParking (employees : list Employee) (queue : list Vehicle)
  : Run (list Employee * list Vehicle) (list (object number)) :=
  let fees := calculateServiceFees parkingRates fuelPricePerUnit queue in
  match result fees with
  | JS.Throw e =>
      {| result := JS.Throw e; cells := (employees, cells fees); console := [] |}
  | JS.Return servicedQueue =>
      let loads := assignJobLoads employees servicedQueue in
      match result loads with
      | JS.Throw e =>
          {| result := JS.Throw e;
             cells := (fst (cells loads), cells fees);
             console := [] |}
      | JS.Return jobLoads =>
          let checkout := addEmployeeCommission jobLoads in
          match result checkout with
          | JS.Throw e =>
              {| result := JS.Throw e;
                 cells := (fst (cells loads), cells fees);
                 console := console checkout |}
          | JS.Return goToTheCheckout =>
              {| result := result (makeMePretty toNumber goToTheCheckout);
                 cells := (fst (cells loads), cells fees);
                 console := console checkout |}
          end
      end
  end.

End Orchestrator.

(** ** Fixtures: the inputs of the repository's tests, and the default
    configuration *)

Module Fixtures.

Definition parkingRates : list ParkingRate :=
  [ {| rate_size := "small"; rate := 25 |};
    {| rate_size := "large"; rate := 35 |} ].

Definition fuelPricePerUnit : Q := 175 # 100.

Definition vehicle (plate sz : string) (cap lvl : Q) : Vehicle :=
  {| licencePlate := plate; size := sz;
     fuel := {| capacity := cap; level := lvl |} |}.

(** "should calculate service fees" *)
Definition carA := vehicle "A" "large" 10 (1 # 10).
Definition carB := vehicle "B" "small" 10 (1 # 10).
Definition carC := vehicle "C" "large" 10 (- 11 # 10).
Definition carD := vehicle "D" "large" 10 (9 # 10).
Definition testCars : list Vehicle := [carA; carB; carC; carD].

(** A size the rate table does not list. *)
Definition carM := vehicle "M" "medium" 10 (1 # 2).

(** "should assign job loads" *)
Definition jobD : PricedJob :=
  {| car := carD; fuelAdded := 0; netTotal := 35 # 10 |}.
Definition jobA : PricedJob :=
  {| car := carA; fuelAdded := 9; netTotal := 5075 # 100 |}.
Definition jobC : PricedJob :=
  {| car := vehicle "C" "large" 10 (11 # 10); fuelAdded := 0; netTotal := 35 |}.
Definition jobB : PricedJob :=
  {| car := carB; fuelAdded := 9; netTotal := 4075 # 100 |}.
Definition testQueue : list PricedJob := [jobD; jobA; jobC; jobB].

Definition ian : Employee := {| name := "Ian Malcolm"; commissionPct := 11 |}.
Definition alan : Employee := {| name := "Alan Grant"; commissionPct := 15 |}.
Definition testEmployees : list Employee := [ian; alan].

(** The example of the comment in [assignJobLoads]: 10 jobs among 4
    employees. *)
Definition ellie : Employee := {| name := "Ellie Sattler"; commissionPct := 13 |}.
Definition john : Employee := {| name := "John Hammond"; commissionPct := 9 |}.
Definition fourEmployees : list Employee := [ian; alan; ellie; john].

Definition flatJob (plate : string) : PricedJob :=
  {| car := vehicle plate "large" 10 (9 # 10); fuelAdded := 0; netTotal := 35 |}.
Definition tenJobs : list PricedJob :=
  List.map flatJob ["J0"; "J1"; "J2"; "J3"; "J4"; "J5"; "J6"; "J7"; "J8"; "J9"].

(** A job whose commission at 12.5% needs a sixth decimal place:
    a large vehicle at 5% of a capacity of 10. *)
Definition carE := vehicle "E" "large" 10 (5 # 100).
Definition jobE : PricedJob :=
  {| car := carE; fuelAdded := 95 # 10; netTotal := 51625 # 1000 |}.
Definition robert : Employee :=
  {| name := "Robert Muldoon"; commissionPct := 125 # 10 |}.
Definition dennis : Employee :=
  {| name := "Dennis Nedry"; commissionPct := - 3 |}.

Definition assignedTo (e : Employee) (n : Z) (j : PricedJob) : AssignedJob :=
  {| load := {| emp := e; numJobs := JS.Num (inject_Z n) |}; job := j |}.

Definition jobE_robert : AssignedJob := assignedTo robert 1 jobE.

(** "should make things pretty", first job *)
Definition payableA : PayableJob :=
  {| assigned := assignedTo alan 2 jobA; totalToPay := 583625 # 10000 |}.


(** What "should assign job loads" is given back. *)
Definition testAssignment : list AssignedJob :=
  [ assignedTo alan 2 jobA; assignedTo alan 2 jobB;
    assignedTo ian 2 jobC; assignedTo ian 2 jobD ].

(** The receipts for [testCars] served by [testEmployees], the numbers
    being reduced fractions. *)
Definition testReceipts : list (object Q) :=
  [ [ ("licencePlate", VString "A"); ("employee", VString "Alan Grant");
      ("fuelAdded", VNumber 9); ("price", VNumber (Qred (583625 # 10000))) ];
    [ ("licencePlate", VString "B"); ("employee", VString "Alan Grant");
      ("fuelAdded", VNumber 9); ("price", VNumber (Qred (468625 # 10000))) ];
    [ ("licencePlate", VString "C"); ("employee", VString "Ian Malcolm");
      ("fuelAdded", VNumber 0); ("price", VNumber (Qred (3885 # 100))) ];
    [ ("licencePlate", VString "D"); ("employee", VString "Ian Malcolm");
      ("fuelAdded", VNumber 0); ("price", VNumber (Qred (3885 # 100))) ] ].

End Fixtures.

(** ** Vocabulary of the properties *)

Section Keys.

Context {A : Type} (key : A -> Q).

(** The comparator [(a, b) => key(b) - key(a)]. *)
Definition descending (a b : A) : Q := key b - key a.

(** [a] may stand before [b] in a descending array. *)
Definition notBelow (a b : A) : Prop := key b <= key a.

Definition hasKey (k : Q) (x : A) : bool := Qeq_bool (key x) k.

End Keys.

(** No two jobs of the queue have net totals that differ and yet are
    read as equal by the comparator: any two are equal or more than
    [2^-1075] apart.  On such a queue [byNetTotal] is consistent. *)
Definition wellSeparated (queue : list PricedJob) : Prop :=
  forall a b, In a queue -> In b queue ->
              netTotal a == netTotal b
              \/ JS.underflow < Qabs (netTotal b - netTotal a).

(** [chunkSize] for [totalEmployees > 0], as a natural number. *)
Definition chunk (totalJobs totalEmployees : nat) : nat :=
  if (totalEmployees <? totalJobs)%nat then (totalJobs / totalEmployees)%nat
  else 1%nat.

Definition loadOf (c : nat) (e : Employee) : JobLoad :=
  {| emp := e; numJobs := JS.Num (inject_Z (Z.of_nat c)) |}.

(** What the loop hands out when every load is [c]: the first [c] jobs to
    the first employee, the next [c] to the second, and so on. *)
Fixpoint handOut (c : nat) (es : list Employee) (q : list PricedJob)
  : list AssignedJob :=
  match es with
  | [] => []
  | e :: others =>
      List.map (fun j => {| load := loadOf c e; job := j |}) (firstn c q)
      ++ handOut c others (skipn c q)
  end.

(** [a <= b] from [H : c <= d] when [b - a] and [d - c] are equal, which
    [tac] shows. *)
Ltac qle_by H tac :=
  lazymatch type of H with
  | ?c <= ?d =>
      lazymatch goal with
      | |- ?a <= ?b =>
          let E := fresh "E" in
          assert (E : b + - a == d + - c) by tac;
          apply (proj2 (Qle_minus_iff a b)); rewrite E;
          apply (proj1 (Qle_minus_iff c d)); exact H
      end
  end.

(** * Properties *)

(** ** Decimals *)

Lemma Qlt_bool_iff (x y : Q) : JS.Qlt_bool x y = true <-> x < y.
Proof.
  unfold JS.Qlt_bool. rewrite negb_true_iff, <- not_true_iff_false, Qle_bool_iff.
  split; [apply Qnot_le_lt | apply Qlt_not_le].
Qed.

Lemma Qlt_bool_false_iff (x y : Q) : JS.Qlt_bool x y = false <-> y <= x.
Proof.
  unfold JS.Qlt_bool. rewrite negb_false_iff. apply Qle_bool_iff.
Qed.

(** ** [Array.prototype.sort] with any comparator *)

Section SortAny.

Context {A : Type} (compare : A -> A -> Q).

Lemma insert_permutes (x : A) (l : list A) :
  Permutation (Array.insert compare x l) (x :: l).
Proof.
  induction l as [|y l IH]; simpl.
  - apply Permutation_refl.
  - destruct (JS.Qlt_bool 0 (compare x y)).
    + apply Permutation_trans with (y :: x :: l).
      * apply perm_skip, IH.
      * apply perm_swap.
    + apply Permutation_refl.
Qed.

Lemma sort_permutes (l : list A) : Permutation (Array.sort compare l) l.
Proof.
  induction l as [|x l IH]; simpl.
  - apply perm_nil.
  - apply Permutation_trans with (x :: Array.sort compare l).
    + apply insert_permutes.
    + apply perm_skip, IH.
Qed.

Lemma sort_same_length (l : list A) :
  List.length (Array.sort compare l) = List.length l.
Proof. apply Permutation_length, sort_permutes. Qed.

Lemma sort_same_elements (l : list A) (x : A) :
  In x (Array.sort compare l) <-> In x l.
Proof.
  split; apply Permutation_in;
    [ | apply Permutation_sym ]; apply sort_permutes.
Qed.

(** Two comparators with the same signs on an array sort it alike. *)
Lemma insert_agree (compare' : A -> A -> Q) (x : A) (l : list A) :
  (forall y, In y l ->
             JS.Qlt_bool 0 (compare x y) = JS.Qlt_bool 0 (compare' x y)) ->
  Array.insert compare x l = Array.insert compare' x l.
Proof.
  induction l as [|y l IH]; intros H; [reflexivity|].
  simpl. rewrite <- (H y (or_introl eq_refl)).
  destruct (JS.Qlt_bool 0 (compare x y)); [|reflexivity].
  f_equal. apply IH. intros z Hz. apply H. right. exact Hz.
Qed.

Lemma sort_agree (compare' : A -> A -> Q) (l : list A) :
  (forall x y, In x l -> In y l ->
               JS.Qlt_bool 0 (compare x y) = JS.Qlt_bool 0 (compare' x y)) ->
  Array.sort compare l = Array.sort compare' l.
Proof.
  induction l as [|x l IH]; intros H; [reflexivity|].
  simpl. rewrite <- IH.
  - apply insert_agree. intros y Hy. apply -> sort_same_elements in Hy.
    apply H; [left; reflexivity | right; exact Hy].
  - intros a b Ha Hb. apply H; right; assumption.
Qed.

End SortAny.

(** ** [Array.prototype.sort] with a comparator [key b - key a] *)

Section SortFacts.

Context {A : Type} (key : A -> Q).

Lemma moved_behind_iff (x y : A) :
  JS.Qlt_bool 0 (descending key x y) = true <-> key x < key y.
Proof.
  rewrite Qlt_bool_iff. unfold descending.
  split; intros H.
  - apply Qplus_lt_l with (z := - key x). ring_simplify.
    setoid_replace (-1 * key x + key y) with (key y - key x) by ring. exact H.
  - apply Qplus_lt_l with (z := key x). ring_simplify. exact H.
Qed.

Lemma insert_Permutation (x : A) (l : list A) :
  Permutation (Array.insert (descending key) x l) (x :: l).
Proof.
  induction l as [|y l IH]; simpl.
  - apply Permutation_refl.
  - destruct (JS.Qlt_bool 0 (descending key x y)).
    + apply Permutation_trans with (y :: x :: l).
      * apply perm_skip, IH.
      * apply perm_swap.
    + apply Permutation_refl.
Qed.

Lemma sort_Permutation (l : list A) :
  Permutation (Array.sort (descending key) l) l.
Proof.
  induction l as [|x l IH]; simpl.
  - apply perm_nil.
  - apply Permutation_trans with (x :: Array.sort (descending key) l).
    + apply insert_Permutation.
    + apply perm_skip, IH.
Qed.

Lemma sort_length (l : list A) :
  List.length (Array.sort (descending key) l) = List.length l.
Proof. apply Permutation_length, sort_Permutation. Qed.

Lemma sort_In (l : list A) (x : A) :
  In x (Array.sort (descending key) l) <-> In x l.
Proof.
  split; apply Permutation_in;
    [ | apply Permutation_sym ]; apply sort_Permutation.
Qed.

Lemma insert_sorted (x : A) (l : list A) :
  StronglySorted (notBelow key) l ->
  StronglySorted (notBelow key) (Array.insert (descending key) x l).
Proof.
  induction 1 as [|y l Hl IH Hy]; simpl.
  - repeat constructor.
  - destruct (JS.Qlt_bool 0 (descending key x y)) eqn:E.
    + apply moved_behind_iff in E.
      constructor; [exact IH|].
      apply Forall_forall. intros z Hz.
      apply (Permutation_in _ (insert_Permutation x l)) in Hz.
      destruct Hz as [<-|Hz].
      * apply Qlt_le_weak, E.
      * rewrite Forall_forall in Hy. apply Hy, Hz.
    + assert (Hxy : key y <= key x).
      { apply Qnot_lt_le. intros H. apply moved_behind_iff in H. congruence. }
      constructor; [constructor; assumption|].
      constructor; [exact Hxy|].
      apply Forall_forall. intros z Hz. rewrite Forall_forall in Hy.
      apply Qle_trans with (key y); [apply Hy, Hz | exact Hxy].
Qed.

Lemma sort_sorted (l : list A) :
  StronglySorted (notBelow key) (Array.sort (descending key) l).
Proof.
  induction l as [|x l IH]; simpl.
  - constructor.
  - apply insert_sorted, IH.
Qed.


(** Stability: the elements with a given key keep their order. *)
Lemma insert_stable (k : Q) (x : A) (l : list A) :
  filter (hasKey key k) (Array.insert (descending key) x l) = filter (hasKey key k) (x :: l).
Proof.
  induction l as [|y l IH]; [reflexivity|].
  simpl Array.insert.
  destruct (JS.Qlt_bool 0 (descending key x y)) eqn:E; [|reflexivity].
  apply moved_behind_iff in E.
  simpl filter in *. rewrite IH.
  destruct (hasKey key k x) eqn:Hx; [|reflexivity].
  destruct (hasKey key k y) eqn:Hy; [|reflexivity].
  unfold hasKey in Hx, Hy. apply Qeq_bool_iff in Hx, Hy.
  rewrite Hx, Hy in E. exfalso. exact (Qlt_irrefl _ E).
Qed.

Lemma sort_stable (k : Q) (l : list A) :
  filter (hasKey key k) (Array.sort (descending key) l) = filter (hasKey key k) l.
Proof.
  induction l as [|x l IH]; [reflexivity|].
  simpl Array.sort. rewrite insert_stable. simpl. rewrite IH. reflexivity.
Qed.

End SortFacts.

(** ** The chunk arithmetic of [assignJobLoads] *)

Lemma of_nat_nonzero (n : nat) :
  (0 < n)%nat -> Qeq_bool (inject_Z (Z.of_nat n)) 0 = false.
Proof.
  intros H. apply not_true_iff_false. rewrite Qeq_bool_iff.
  unfold Qeq. simpl. lia.
Qed.

Lemma chunk_positive (J E : nat) : (0 < E)%nat -> (1 <= chunk J E)%nat.
Proof.
  intros HE. unfold chunk. destruct (Nat.ltb_spec E J) as [H|H]; [|lia].
  apply Nat.div_le_lower_bound; lia.
Qed.

Lemma chunkSizeOf_spec (J E : nat) :
  (0 < E)%nat ->
  chunkSizeOf (JS.of_nat J) (JS.of_nat E)
  = JS.Num (inject_Z (Z.of_nat (chunk J E))).
Proof.
  intros HE. unfold chunkSizeOf, JS.of_nat, JS.div.
  rewrite (of_nat_nonzero HE). unfold JS.gt, chunk.
  assert (HEq : 0 < inject_Z (Z.of_nat E)).
  { rewrite <- (Zlt_Qlt 0). lia. }
  destruct (Nat.ltb_spec E J) as [H|H].
  - assert (G : JS.Qlt_bool 1 (inject_Z (Z.of_nat J) / inject_Z (Z.of_nat E)) = true).
    { apply Qlt_bool_iff, Qlt_shift_div_l; [exact HEq|].
      rewrite Qmult_1_l, <- Zlt_Qlt. lia. }
    rewrite G. unfold JS.floor.
    rewrite <- Zdiv_Qdiv, <- Nat2Z.inj_div. reflexivity.
  - assert (G : JS.Qlt_bool 1 (inject_Z (Z.of_nat J) / inject_Z (Z.of_nat E)) = false).
    { apply Qlt_bool_false_iff, Qle_shift_div_r; [exact HEq|].
      rewrite Qmult_1_l, <- Zle_Qle. lia. }
    rewrite G. reflexivity.
Qed.

(** The test [!totalJobs % totalEmployees === 0] holds whenever there is
    a job and an employee: [!totalJobs] is then [false], and
    [false % totalEmployees] is 0. *)
Lemma isEvenQueueOf_true (J E : nat) :
  (0 < J)%nat -> (0 < E)%nat ->
  isEvenQueueOf (JS.of_nat J) (JS.of_nat E) = true.
Proof.
  intros HJ HE. unfold isEvenQueueOf, JS.of_nat, JS.not.
  rewrite (of_nat_nonzero HJ). unfold JS.of_bool, JS.rem.
  rewrite (of_nat_nonzero HE). unfold JS.strict_eq.
  apply Qeq_bool_iff. simpl. rewrite Z.quot_0_l by discriminate. ring.
Qed.

(** With an employee in the pool every load is the chunk size: the
    leftover is never added. *)
Lemma jobLoadsOf_nonempty (sortedEmployees : list Employee) (J : nat) :
  sortedEmployees <> [] ->
  jobLoadsOf sortedEmployees J
  = JS.Return
      (List.map (loadOf (chunk J (List.length sortedEmployees))) sortedEmployees).
Proof.
  intros Hne.
  assert (HE : (0 < List.length sortedEmployees)%nat).
  { destruct sortedEmployees; [congruence | simpl; lia]. }
  unfold jobLoadsOf. rewrite (chunkSizeOf_spec J HE).
  fold (loadOf (chunk J (List.length sortedEmployees))).
  destruct (isEvenQueueOf _ _) eqn:Even; [reflexivity|].
  destruct J as [|J].
  - simpl negb. cbv iota.
    assert (G : JS.gt
                  (JS.sub (JS.of_nat 0)
                     (JS.mul (JS.Num (inject_Z (Z.of_nat (chunk 0 (List.length sortedEmployees)))))
                        (JS.of_nat (List.length sortedEmployees))))
                  (JS.Num 0) = false).
    { unfold JS.of_nat, JS.mul, JS.sub, JS.gt. apply Qlt_bool_false_iff.
      assert (0 <= inject_Z (Z.of_nat (chunk 0 (List.length sortedEmployees)))
                   * inject_Z (Z.of_nat (List.length sortedEmployees))).
      { apply Qmult_le_0_compat; rewrite <- (Zle_Qle 0); lia. }
      simpl inject_Z at 1.
      apply Qplus_le_l with
        (z := inject_Z (Z.of_nat (chunk 0 (List.length sortedEmployees)))
              * inject_Z (Z.of_nat (List.length sortedEmployees))).
      ring_simplify. exact H. }
    rewrite G. reflexivity.
  - rewrite isEvenQueueOf_true in Even by lia. discriminate.
Qed.

(** Without employees [jobLoads] is empty, and nothing throws: [0 / 0] is
    NaN, [n / 0] is Infinity, and [Infinity * 0] is NaN. *)
Lemma jobLoadsOf_nil (J : nat) : jobLoadsOf [] J = JS.Return [].
Proof.
  destruct J; reflexivity.
Qed.

(** ** The consuming loop *)

Lemma deleteCount_loadOf (c : nat) (e : Employee) (len : nat) :
  JS.deleteCount (numJobs (loadOf c e)) len = Nat.min c len.
Proof.
  simpl. rewrite Z.quot_1_r, Nat2Z.id. reflexivity.
Qed.

Lemma firstn_min_length {A} (c : nat) (l : list A) :
  firstn (Nat.min c (List.length l)) l = firstn c l.
Proof.
  destruct (Nat.le_ge_cases c (List.length l)) as [H|H].
  - rewrite Nat.min_l by exact H. reflexivity.
  - rewrite Nat.min_r by exact H.
    rewrite firstn_all, firstn_all2 by exact H. reflexivity.
Qed.

Lemma skipn_min_length {A} (c : nat) (l : list A) :
  skipn (Nat.min c (List.length l)) l = skipn c l.
Proof.
  destruct (Nat.le_ge_cases c (List.length l)) as [H|H].
  - rewrite Nat.min_l by exact H. reflexivity.
  - rewrite Nat.min_r by exact H.
    rewrite skipn_all, skipn_all2 by exact H. reflexivity.
Qed.

Lemma splice0_loadOf (c : nat) (e : Employee) (q : list PricedJob) :
  Array.splice0 (numJobs (loadOf c e)) q = (firstn c q, skipn c q).
Proof.
  unfold Array.splice0. rewrite deleteCount_loadOf.
  rewrite firstn_min_length, skipn_min_length. reflexivity.
Qed.

Lemma handOut_nil (c : nat) (es : list Employee) : handOut c es [] = [].
Proof.
  induction es as [|e es IH]; simpl; [reflexivity|].
  rewrite firstn_nil, skipn_nil, IH. reflexivity.
Qed.

(** Leaving the loop early changes nothing: the employees not reached
    would have been handed no job. *)
Lemma consume_loadOf (c : nat) (es : list Employee) :
  forall (q : list PricedJob) (jobs : list AssignedJob),
    consume (List.map (loadOf c) es) q jobs
    = (skipn (c * List.length es) q, jobs ++ handOut c es q).
Proof.
  induction es as [|e es IH]; intros q jobs.
  - simpl. rewrite Nat.mul_0_r, app_nil_r. reflexivity.
  - cbn [List.map consume]. rewrite splice0_loadOf.
    cbn [handOut List.length].
    replace (c * S (List.length es))%nat with (c * List.length es + c)%nat by lia.
    rewrite <- skipn_skipn.
    destruct (List.length (skipn c q) =? 0)%nat eqn:E.
    + apply Nat.eqb_eq, length_zero_iff_nil in E. rewrite E.
      rewrite skipn_nil, handOut_nil, app_nil_r. reflexivity.
    + rewrite IH, app_assoc. reflexivity.
Qed.

Lemma handOut_jobs (c : nat) (es : list Employee) :
  forall q, List.map job (handOut c es q) = firstn (c * List.length es) q.
Proof.
  induction es as [|e es IH]; intros q.
  - simpl. rewrite Nat.mul_0_r. reflexivity.
  - cbn [handOut List.length]. rewrite map_app, map_map, IH. cbn [job].
    rewrite map_id.
    replace (c * S (List.length es))%nat with (c + c * List.length es)%nat by lia.
    rewrite <- (firstn_skipn c q) at 3.
    destruct (Nat.le_ge_cases c (List.length q)) as [H|H].
    + rewrite <- (firstn_app_2 (c * List.length es) (firstn c q) (skipn c q)).
      rewrite length_firstn, Nat.min_l by exact H. reflexivity.
    + rewrite (skipn_all2 q H), firstn_nil, !app_nil_r.
      rewrite (firstn_all2 q H). symmetry. apply firstn_all2. lia.
Qed.

Lemma handOut_numJobs (c : nat) (es : list Employee) :
  forall q, Forall (fun a => numJobs (load a) = JS.Num (inject_Z (Z.of_nat c)))
              (handOut c es q).
Proof.
  induction es as [|e es IH]; intros q; simpl.
  - constructor.
  - apply Forall_app. split; [|apply IH].
    apply Forall_forall. intros a Ha. apply in_map_iff in Ha.
    destruct Ha as (j & <- & _). reflexivity.
Qed.

(** One job each: the jobs go to the first employees, in order. *)
Lemma handOut_one (es : list Employee) :
  forall q, List.map (fun a => emp (load a)) (handOut 1 es q)
            = firstn (List.length q) es.
Proof.
  induction es as [|e es IH]; intros q.
  - rewrite firstn_nil. reflexivity.
  - destruct q as [|j q]; [rewrite handOut_nil; reflexivity|].
    cbn [handOut firstn skipn List.map List.length app].
    rewrite IH. reflexivity.
Qed.

(** The employees of the jobs handed out follow the order of [es]. *)
Lemma handOut_sorted (c : nat) (es : list Employee) :
  StronglySorted (notBelow commissionPct) es ->
  forall q,
    StronglySorted (fun a b => commissionPct (emp (load b))
                               <= commissionPct (emp (load a)))
      (handOut c es q)
    /\ Forall (fun a => In (emp (load a)) es) (handOut c es q).
Proof.
  induction 1 as [|e es Hs IH He]; intros q.
  - split; constructor.
  - cbn [handOut]. destruct (IH (skipn c q)) as [IHs IHin]. split.
    + induction (firstn c q) as [|j js IHj]; [exact IHs|].
      cbn [List.map app]. constructor; [exact IHj|].
      apply Forall_app. split.
      * apply Forall_forall. intros a Ha. apply in_map_iff in Ha.
        destruct Ha as (j' & <- & _). apply Qle_refl.
      * apply Forall_forall. intros a Ha.
        rewrite Forall_forall in IHin, He. apply (He _ (IHin _ Ha)).
    + apply Forall_app. split.
      * apply Forall_forall. intros a Ha. apply in_map_iff in Ha.
        destruct Ha as (j' & <- & _). left. reflexivity.
      * apply Forall_forall. intros a Ha. rewrite Forall_forall in IHin.
        right. apply IHin, Ha.
Qed.

(** ** [assignJobLoads], in closed form *)

Lemma sortedEmployees_length (employees : list Employee) :
  List.length (Array.sort byCommissionPct employees) = List.length employees.
Proof. apply (sort_length commissionPct). Qed.

Lemma sortedQueue_length (queue : list PricedJob) :
  List.length (Array.sort byNetTotal queue) = List.length queue.
Proof. apply sort_same_length. Qed.

Lemma assignJobLoads_nonempty (employees : list Employee)
  (queue : list PricedJob) :
  employees <> [] ->
  let sortedEmployees := Array.sort byCommissionPct employees in
  let sortedQueue := Array.sort byNetTotal queue in
  let c := chunk (List.length queue) (List.length employees) in
  let unassigned := skipn (c * List.length employees) sortedQueue in
  assignJobLoads employees queue
  = {| result :=
         if (0 <? List.length unassigned)%nat then JS.Throw UNASSIGNED
         else JS.Return (handOut c sortedEmployees sortedQueue);
       cells := (sortedEmployees, unassigned);
       console := [] |}.
Proof.
  intros Hne sortedEmployees sortedQueue c unassigned.
  assert (HlenE : List.length sortedEmployees = List.length employees)
    by apply (sort_length commissionPct).
  assert (HlenQ : List.length sortedQueue = List.length queue)
    by apply sortedQueue_length.
  assert (Hne' : sortedEmployees <> []).
  { intros E. rewrite E in HlenE. destruct employees; [congruence|discriminate]. }
  unfold assignJobLoads. fold sortedEmployees sortedQueue.
  rewrite (jobLoadsOf_nonempty _ Hne'), HlenE, HlenQ. fold c.
  rewrite consume_loadOf, HlenE. reflexivity.
Qed.

Lemma assignJobLoads_no_employees (queue : list PricedJob) :
  assignJobLoads [] queue
  = {| result := match queue with
                 | [] => JS.Return []
                 | _ :: _ => JS.Throw UNASSIGNED
                 end;
       cells := ([], Array.sort byNetTotal queue);
       console := [] |}.
Proof.
  unfold assignJobLoads. cbn [Array.sort fold_right].
  rewrite jobLoadsOf_nil. cbn [consume].
  pose proof (sortedQueue_length queue) as L.
  destruct queue as [|j q].
  - reflexivity.
  - destruct (Array.sort byNetTotal (j :: q)) as [|j' q'] eqn:S.
    + discriminate.
    + reflexivity.
Qed.

(** The chunks cover the queue exactly when the jobs are no more than the
    employees or a multiple of them. *)
Lemma chunk_covers (J E : nat) :
  (0 < E)%nat ->
  (J <= chunk J E * E)%nat <-> (J <= E)%nat \/ (J mod E = 0)%nat.
Proof.
  intros HE. unfold chunk. destruct (Nat.ltb_spec E J) as [H|H].
  - pose proof (Nat.div_mod_eq J E) as D.
    pose proof (Nat.mod_upper_bound J E ltac:(lia)) as B.
    split.
    + intros C. right. nia.
    + intros [C|C]; [lia|]. nia.
  - split; [intros _; left; exact H | intros _; lia].
Qed.

(** ** [assignJobLoads]: when it returns *)

(** With an employee in the pool, [assignJobLoads] returns exactly when
    the jobs are no more than the employees or a multiple of them; in
    every other case it throws its sanity-check error. *)
Lemma assignJobLoads_returns_iff (employees : list Employee)
  (queue : list PricedJob) :
  employees <> [] ->
  let J := List.length queue in
  let E := List.length employees in
  ((J <= E)%nat \/ (J mod E = 0)%nat ->
   exists jobs, result (assignJobLoads employees queue) = JS.Return jobs)
  /\ (~ ((J <= E)%nat \/ (J mod E = 0)%nat) ->
      result (assignJobLoads employees queue) = JS.Throw UNASSIGNED).
Proof.
  intros Hne J E.
  assert (HE : (0 < E)%nat).
  { subst E. destruct employees; [congruence | simpl; lia]. }
  rewrite (assignJobLoads_nonempty queue Hne). cbn [result].
  rewrite length_skipn, sortedQueue_length. fold J E.
  pose proof (chunk_covers J HE) as C.
  destruct (Nat.ltb_spec 0 (J - chunk J E * E)) as [H|H]; split.
  - intros G. apply C in G. lia.
  - reflexivity.
  - intros _. eexists. reflexivity.
  - intros G. exfalso. apply G, C. lia.
Qed.

(** C1 (code at a failing input): two employees and three jobs.  The
    chunk size is 1, the leftover job is never added to a load, one job
    stays in the queue and the call throws. *)
Theorem C1_three_jobs_two_employees_throw :
  result (assignJobLoads Fixtures.testEmployees
            [Fixtures.jobD; Fixtures.jobA; Fixtures.jobC])
  = JS.Throw UNASSIGNED
  /\ snd (cells (assignJobLoads Fixtures.testEmployees
                   [Fixtures.jobD; Fixtures.jobA; Fixtures.jobC]))
     = [Fixtures.jobD].
Proof.
  split; vm_compute; reflexivity.
Qed.

(** C2 (code at a failing input): the example of the comment, 10 jobs
    among 4 employees.  The leftover is 10 - 2 * 4 = 2 > 0, yet every
    load stays 2 (not 4-2-2-2), two jobs stay in the queue and the call
    throws. *)
Theorem C2_ten_jobs_four_employees_no_leftover :
  JS.sub (JS.of_nat 10) (JS.mul (chunkSizeOf (JS.of_nat 10) (JS.of_nat 4)) (JS.of_nat 4))
  = JS.Num 2
  /\ jobLoadsOf (Array.sort byCommissionPct Fixtures.fourEmployees) 10
     = JS.Return [ loadOf 2 Fixtures.alan; loadOf 2 Fixtures.ellie;
                   loadOf 2 Fixtures.ian; loadOf 2 Fixtures.john ]
  /\ result (assignJobLoads Fixtures.fourEmployees Fixtures.tenJobs)
     = JS.Throw UNASSIGNED
  /\ List.length (snd (cells (assignJobLoads Fixtures.fourEmployees Fixtures.tenJobs)))
     = 2%nat.
Proof.
  repeat split; vm_compute; reflexivity.
Qed.

(** The comparator of the jobs on a well separated queue. *)
Lemma underflow_positive : 0 < JS.underflow.
Proof. reflexivity. Qed.

Lemma byNetTotal_exact (queue : list PricedJob) (x y : PricedJob) :
  wellSeparated queue -> In x queue -> In y queue ->
  JS.Qlt_bool 0 (byNetTotal x y) = JS.Qlt_bool 0 (descending netTotal x y).
Proof.
  intros W Hx Hy. unfold byNetTotal, descending, JS.signOfToNumber, BigNumber.minus.
  destruct (W x y Hx Hy) as [E|F].
  - assert (Z : netTotal y - netTotal x == 0) by (rewrite E; ring).
    assert (L : Qle_bool (Qabs (netTotal y - netTotal x)) JS.underflow = true).
    { apply Qle_bool_iff. rewrite Z. apply Qlt_le_weak, underflow_positive. }
    rewrite L. symmetry. transitivity false; [|reflexivity].
    apply Qlt_bool_false_iff. rewrite Z. apply Qle_refl.
  - assert (L : Qle_bool (Qabs (netTotal y - netTotal x)) JS.underflow = false).
    { apply not_true_iff_false. rewrite Qle_bool_iff.
      apply Qlt_not_le, F. }
    rewrite L. reflexivity.
Qed.

Lemma sortedQueue_exact (queue : list PricedJob) :
  wellSeparated queue ->
  Array.sort byNetTotal queue = Array.sort (descending netTotal) queue.
Proof.
  intros W. apply sort_agree. intros x y Hx Hy.
  apply (@byNetTotal_exact queue x y W Hx Hy).
Qed.

Lemma sorted_app_below {A} (R : A -> A -> Prop) (l1 l2 : list A) :
  StronglySorted R (l1 ++ l2) ->
  StronglySorted R l1 /\ forall a b, In a l1 -> In b l2 -> R a b.
Proof.
  induction l1 as [|x l1 IH]; intros S.
  - split; [constructor | intros a b []].
  - simpl in S. inversion S as [|? ? S' Hall]; subst.
    destruct (IH S') as [S1 H12]. rewrite Forall_forall in Hall. split.
    + constructor; [exact S1|]. apply Forall_forall. intros z Hz.
      apply Hall, in_or_app. left. exact Hz.
    + intros a b [<-|Ha] Hb.
      * apply Hall, in_or_app. right. exact Hb.
      * apply H12; assumption.
Qed.

(** C6: with an employee in the pool and fewer jobs than employees (no
    job at all included), the chunk size is 1 and the call returns: every
    job of the queue is handed out once, one to each of the first
    employees of the pool sorted by descending commission.  Those who
    get a job stand in descending order of [commissionPct], and every
    employee left without one has a [commissionPct] no greater than
    theirs.  Without jobs the result is empty.  (On a well separated
    queue the jobs of the result are the queue by descending
    [netTotal].) *)
Theorem C6_fewer_jobs_than_employees (employees : list Employee)
  (queue : list PricedJob) :
  employees <> [] ->
  (List.length queue < List.length employees)%nat ->
  chunkSizeOf (JS.of_nat (List.length queue)) (JS.of_nat (List.length employees))
  = JS.Num 1
  /\ exists jobs,
       result (assignJobLoads employees queue) = JS.Return jobs
       /\ Permutation (List.map job jobs) queue
       /\ List.length jobs = List.length queue
       /\ Forall (fun a => numJobs (load a) = JS.Num 1) jobs
       /\ List.map (fun a => emp (load a)) jobs
          = firstn (List.length queue) (Array.sort byCommissionPct employees)
       /\ StronglySorted (notBelow commissionPct)
            (List.map (fun a => emp (load a)) jobs)
       /\ (exists idle,
             Permutation (List.map (fun a => emp (load a)) jobs ++ idle) employees
             /\ List.length idle
                = (List.length employees - List.length queue)%nat
             /\ forall a e, In a jobs -> In e idle ->
                            commissionPct e <= commissionPct (emp (load a)))
       /\ (wellSeparated queue ->
           List.map job jobs = Array.sort (descending netTotal) queue)
       /\ (queue = [] -> jobs = []).
Proof.
  intros Hne Hlt.
  assert (Hc : chunk (List.length queue) (List.length employees) = 1%nat).
  { unfold chunk. destruct (Nat.ltb_spec (List.length employees) (List.length queue)); lia. }
  split.
  - rewrite chunkSizeOf_spec by lia. rewrite Hc. reflexivity.
  - rewrite (assignJobLoads_nonempty queue Hne). cbn [result]. rewrite Hc.
    pose proof (sortedQueue_length queue) as LQ.
    pose proof (sortedEmployees_length employees) as LE.
    rewrite length_skipn, LQ.
    destruct (Nat.ltb_spec 0 (List.length queue - 1 * List.length employees)); [lia|].
    set (sortedEmployees := Array.sort byCommissionPct employees) in *.
    set (sortedQueue := Array.sort byNetTotal queue) in *.
    eexists. split; [reflexivity|].
    assert (Hjobs : List.map job (handOut 1 sortedEmployees sortedQueue)
                    = sortedQueue).
    { rewrite handOut_jobs. apply firstn_all2. rewrite LQ, LE. lia. }
    assert (Hemps : List.map (fun a => emp (load a))
                      (handOut 1 sortedEmployees sortedQueue)
                    = firstn (List.length queue) sortedEmployees).
    { rewrite handOut_one, LQ. reflexivity. }
    assert (S : StronglySorted (notBelow commissionPct)
                  (firstn (List.length queue) sortedEmployees
                   ++ skipn (List.length queue) sortedEmployees)).
    { rewrite firstn_skipn. apply (sort_sorted commissionPct). }
    apply sorted_app_below in S. destruct S as [S1 S12].
    split; [rewrite Hjobs; apply sort_permutes|].
    split; [rewrite <- (length_map job), Hjobs; exact LQ|].
    split; [apply (handOut_numJobs 1)|].
    split; [exact Hemps|].
    split; [rewrite Hemps; exact S1|].
    split; [|split].
    + exists (skipn (List.length queue) sortedEmployees).
      rewrite Hemps, firstn_skipn. split; [apply (sort_Permutation commissionPct)|].
      split; [rewrite length_skipn, LE; reflexivity|].
      intros a e Ha He. apply (S12 (emp (load a)) e); [|exact He].
      rewrite <- Hemps. apply (in_map (fun a => emp (load a))), Ha.
    + intros W. rewrite Hjobs. apply sortedQueue_exact, W.
    + intros ->. apply handOut_nil.
Qed.

Lemma C6_fewer_jobs_than_employees_witness :
  chunkSizeOf (JS.of_nat 1) (JS.of_nat 2) = JS.Num 1
  /\ exists jobs,
       result (assignJobLoads Fixtures.testEmployees [Fixtures.jobB]) = JS.Return jobs
       /\ Permutation (List.map job jobs) [Fixtures.jobB]
       /\ List.length jobs = 1%nat
       /\ Forall (fun a => numJobs (load a) = JS.Num 1) jobs
       /\ List.map (fun a => emp (load a)) jobs
          = firstn 1 (Array.sort byCommissionPct Fixtures.testEmployees)
       /\ StronglySorted (notBelow commissionPct)
            (List.map (fun a => emp (load a)) jobs)
       /\ (exists idle,
             Permutation (List.map (fun a => emp (load a)) jobs ++ idle)
               Fixtures.testEmployees
             /\ List.length idle = (2 - 1)%nat
             /\ forall a e, In a jobs -> In e idle ->
                            commissionPct e <= commissionPct (emp (load a)))
       /\ (wellSeparated [Fixtures.jobB] ->
           List.map job jobs = Array.sort (descending netTotal) [Fixtures.jobB])
       /\ ([Fixtures.jobB] = [] -> jobs = []).
Proof.
  apply (@C6_fewer_jobs_than_employees Fixtures.testEmployees [Fixtures.jobB]).
  - discriminate.
  - simpl. lia.
Defined.

(** C10: no employee and no job: the empty list is returned and nothing
    is thrown. *)
Theorem C10_no_employees_no_jobs :
  result (assignJobLoads [] []) = JS.Return [].
Proof.
  reflexivity.
Qed.




(** ** [Array.prototype.map] with a callback that may throw *)

Lemma map_returns {A B} (f : A -> JS.completion B) (arr : list A) (ys : list B) :
  Array.map f arr = JS.Return ys ->
  Forall2 (fun x y => f x = JS.Return y) arr ys.
Proof.
  revert ys. induction arr as [|x arr IH]; intros ys H; simpl in H.
  - injection H as <-. constructor.
  - destruct (f x) as [y|e] eqn:Fx; [|discriminate]. simpl in H.
    destruct (Array.map f arr) as [ys'|e]; [|discriminate]. simpl in H.
    injection H as <-. constructor; [exact Fx | apply IH; reflexivity].
Qed.

Lemma map_throws {A B} (f : A -> JS.completion B) (arr : list A) (e : JS.exn) :
  Array.map f arr = JS.Throw e -> exists x, In x arr /\ f x = JS.Throw e.
Proof.
  induction arr as [|x arr IH]; intros H; simpl in H; [discriminate|].
  destruct (f x) as [y|e'] eqn:Fx; simpl in H.
  - destruct (Array.map f arr) as [ys'|e'']; simpl in H; [discriminate|].
    injection H as ->. destruct IH as (x' & I & T); [reflexivity|].
    exists x'. split; [right; exact I | exact T].
  - injection H as ->. exists x. split; [left; reflexivity | exact Fx].
Qed.

Lemma map_throws_if {A B} (f : A -> JS.completion B) (arr : list A) (x : A) :
  In x arr -> (exists e, f x = JS.Throw e) -> exists e, Array.map f arr = JS.Throw e.
Proof.
  induction arr as [|y arr IH]; intros I T; [contradiction|].
  simpl. destruct (f y) as [v|e] eqn:Fy; simpl.
  - destruct I as [->|I].
    + destruct T as (e & T). congruence.
    + destruct (IH I T) as (e & ->). exists e. reflexivity.
  - exists e. reflexivity.
Qed.

Lemma map_returns_if {A B} (f : A -> JS.completion B) (arr : list A) :
  (forall x, In x arr -> exists y, f x = JS.Return y) ->
  exists ys, Array.map f arr = JS.Return ys.
Proof.
  induction arr as [|x arr IH]; intros H.
  - exists []. reflexivity.
  - destruct (H x (or_introl eq_refl)) as (y & Hy).
    destruct IH as (ys & Hys); [intros z Hz; apply H; right; exact Hz|].
    exists (y :: ys). simpl. rewrite Hy. simpl. rewrite Hys. reflexivity.
Qed.

(** ** [calculateUnitsToFuel] and [calculateServiceFees] *)

Section FeeFacts.

Variable parkingRates : list ParkingRate.
Variable fuelPricePerUnit : Q.

Lemma needsRefuel_iff (c : Vehicle) :
  needsRefuel c = true
  <-> 0 <= level (fuel c) * 100 /\ level (fuel c) * 100 <= 10.
Proof.
  unfold needsRefuel, BigNumber.isLessThanOrEqualTo,
    BigNumber.isGreaterThanOrEqualTo, fuelPct, BigNumber.multipliedBy.
  rewrite andb_true_iff, !Qle_bool_iff. tauto.
Qed.

Lemma parkingRateOf_throws_iff (c : Vehicle) :
  (exists e, parkingRateOf parkingRates c = JS.Throw e)
  <-> forall r, In r parkingRates -> rate_size r <> size c.
Proof.
  unfold parkingRateOf.
  destruct (filter _ parkingRates) as [|x xs] eqn:F; split.
  - intros _ r Hr E.
    assert (I : In r (filter (fun x => String.eqb (rate_size x) (size c)) parkingRates)).
    { apply filter_In. split; [exact Hr | apply String.eqb_eq, E]. }
    rewrite F in I. exact I.
  - intros _. eexists. reflexivity.
  - intros (e & H). discriminate.
  - intros H. exfalso.
    assert (I : In x (filter (fun x => String.eqb (rate_size x) (size c)) parkingRates)).
    { rewrite F. left. reflexivity. }
    apply filter_In in I. destruct I as (I & E).
    apply (H x I), String.eqb_eq, E.
Qed.

Lemma serviceFee_returns (c : Vehicle) (p : PricedJob) :
  serviceFee parkingRates fuelPricePerUnit c = JS.Return p ->
  car p = c
  /\ fuelAdded p = unitsToFuel (calculateUnitsToFuel fuelPricePerUnit c)
  /\ exists parkingFee,
       parkingRateOf parkingRates c = JS.Return parkingFee
       /\ netTotal p
          = totalFuelPrice (calculateUnitsToFuel fuelPricePerUnit c) + parkingFee.
Proof.
  unfold serviceFee. intros H.
  destruct (parkingRateOf parkingRates c) as [fee|e]; [|discriminate].
  simpl in H. injection H as <-. cbn [car fuelAdded netTotal].
  repeat split. exists fee. split; reflexivity.
Qed.

(** The fee that is returned is the rate of the first entry of the table
    with the size of the vehicle. *)
Lemma parkingRateOf_returns (c : Vehicle) (fee : Q) :
  parkingRateOf parkingRates c = JS.Return fee ->
  exists before x after,
    parkingRates = before ++ x :: after
    /\ rate_size x = size c
    /\ (forall r, In r before -> rate_size r <> size c)
    /\ fee = rate x.
Proof.
  unfold parkingRateOf. induction parkingRates as [|r rs IH]; simpl.
  - discriminate.
  - destruct (String.eqb_spec (rate_size r) (size c)) as [E|N].
    + intros H. injection H as <-. exists [], r, rs.
      repeat split; [exact E | intros r' []].
    + intros H. destruct (IH H) as (before & x & after & -> & Hx & Hb & ->).
      exists (r :: before), x, after. repeat split; [exact Hx|].
      intros r' [<-|Hr']; [exact N | apply Hb, Hr'].
Qed.

Lemma serviceFee_priced (c : Vehicle) :
  (exists r, In r parkingRates /\ rate_size r = size c) ->
  exists p, serviceFee parkingRates fuelPricePerUnit c = JS.Return p.
Proof.
  intros (r & Hr & E). unfold serviceFee.
  destruct (parkingRateOf parkingRates c) as [fee|e] eqn:P.
  - eexists. reflexivity.
  - exfalso. assert (T : exists e, parkingRateOf parkingRates c = JS.Throw e)
      by (exists e; exact P).
    exact (proj1 (parkingRateOf_throws_iff c) T r Hr E).
Qed.

(** C3: every vehicle of a queue whose sizes are all in the rate table is
    priced, in order.  It is refuelled exactly when
    [0 <= level * 100 <= 10]; then [fuelAdded] is
    [capacity - capacity * level] and the fuel fee is
    [fuelAdded * fuelPricePerUnit], otherwise both are 0; and its
    [netTotal] is the fuel fee plus the parking fee, which is the rate of
    the first entry of [parkingRates] with its size. *)
Theorem C3_refuel_and_net_total (queue : list Vehicle) :
(forall v, In v queue -> exists r, In r parkingRates /\ rate_size r = size v) ->
exists priced,
  result (calculateServiceFees parkingRates fuelPricePerUnit queue)
  = JS.Return priced
  /\ Forall2
       (fun v p =>
          car p = v
          /\ (needsRefuel v = true
              <-> 0 <= level (fuel v) * 100 /\ level (fuel v) * 100 <= 10)
          /\ fuelAdded p == unitsToFuel (calculateUnitsToFuel fuelPricePerUnit v)
          /\ exists fuelFee parkingFee,
               netTotal p == fuelFee + parkingFee
               /\ fuelFee
                  == totalFuelPrice (calculateUnitsToFuel fuelPricePerUnit v)
               /\ (exists before x after,
                      parkingRates = before ++ x :: after
                      /\ rate_size x = size v
                      /\ (forall r, In r before -> rate_size r <> size v)
                      /\ parkingFee = rate x)
               /\ (0 <= level (fuel v) * 100 /\ level (fuel v) * 100 <= 10 ->
                   fuelAdded p
                   == capacity (fuel v) - capacity (fuel v) * level (fuel v)
                   /\ fuelFee == fuelAdded p * fuelPricePerUnit)
               /\ (level (fuel v) * 100 < 0 \/ 10 < level (fuel v) * 100 ->
                   fuelAdded p == 0 /\ fuelFee == 0))
       queue priced.
Proof.
  intros Hsizes.
  destruct (@map_returns_if _ _ (serviceFee parkingRates fuelPricePerUnit) queue)
    as (priced & Hp).
  { intros v Hv. apply serviceFee_priced, Hsizes, Hv. }
  exists priced. split; [exact Hp|].
  apply map_returns in Hp. clear Hsizes.
  induction Hp as [|v p vs ps Hvp _ IH]; constructor; [|exact IH].
  destruct (serviceFee_returns _ Hvp) as (Hc & Hf & fee & Hr & Hn).
  split; [exact Hc|]. split; [apply needsRefuel_iff|].
  split; [rewrite Hf; reflexivity|].
  exists (totalFuelPrice (calculateUnitsToFuel fuelPricePerUnit v)), fee.
  split; [rewrite Hn; reflexivity|]. split; [reflexivity|].
  split; [apply parkingRateOf_returns, Hr|].
  rewrite Hf. unfold calculateUnitsToFuel. split.
  - intros H. apply needsRefuel_iff in H. rewrite H.
    cbn [unitsToFuel totalFuelPrice].
    unfold BigNumber.minus, BigNumber.multipliedBy. split; reflexivity.
  - intros H. destruct (needsRefuel v) eqn:N.
    + apply needsRefuel_iff in N. destruct N as [N0 N10]. exfalso.
      destruct H as [H|H]; [exact (Qlt_not_le _ _ H N0) | exact (Qlt_not_le _ _ H N10)].
    + cbn [unitsToFuel totalFuelPrice]. split; reflexivity.
Qed.

(** C4, as the code has it: [calculateServiceFees] throws exactly when
    a vehicle of the queue has a size that no entry of [parkingRates]
    lists, what it throws is the TypeError of reading [rate] of
    [undefined], and it then returns no priced job at all; and on an
    empty employee pool [assignJobLoads] throws exactly when the queue
    holds a job, its error being the sanity check's, and returns the
    empty list on an empty queue. *)
Theorem C4_failures (queue : list Vehicle) (pricedQueue : list PricedJob) :
  ((exists e, result (calculateServiceFees parkingRates fuelPricePerUnit queue)
              = JS.Throw e)
   <-> exists c, In c queue
                 /\ forall r, In r parkingRates -> rate_size r <> size c)
  /\ (forall e, result (calculateServiceFees parkingRates fuelPricePerUnit queue)
                = JS.Throw e ->
                e = JS.TypeError "Cannot read property 'rate' of undefined")
  /\ result (assignJobLoads [] pricedQueue)
     = match pricedQueue with
       | [] => JS.Return []
       | _ :: _ => JS.Throw UNASSIGNED
       end.
Proof.
  cbn [calculateServiceFees result].
  assert (T : forall c e,
             serviceFee parkingRates fuelPricePerUnit c = JS.Throw e ->
             parkingRateOf parkingRates c = JS.Throw e
             /\ e = JS.TypeError "Cannot read property 'rate' of undefined").
  { intros c e. unfold serviceFee, parkingRateOf.
    destruct (filter _ parkingRates); simpl; intros H; [|discriminate].
    injection H as <-. split; reflexivity. }
  split; [split|split].
  - intros (e & H). apply map_throws in H. destruct H as (c & I & H).
    exists c. split; [exact I|].
    apply parkingRateOf_throws_iff. exists e. apply (T _ _ H).
  - intros (c & I & H). apply map_throws_if with (x := c); [exact I|].
    apply parkingRateOf_throws_iff in H. destruct H as (e & H).
    exists e. unfold serviceFee. rewrite H. reflexivity.
  - intros e H. apply map_throws in H. destruct H as (c & _ & H).
    apply (T _ _ H).
  - rewrite assignJobLoads_no_employees. reflexivity.
Qed.

End FeeFacts.

Lemma known_sizes_of_testCars (v : Vehicle) :
  In v Fixtures.testCars ->
  exists r, In r Fixtures.parkingRates /\ rate_size r = size v.
Proof.
  intros [<-|[<-|[<-|[<-|[]]]]].
  - exists {| rate_size := "large"; rate := 35 |}.
    split; [right; left; reflexivity | reflexivity].
  - exists {| rate_size := "small"; rate := 25 |}.
    split; [left; reflexivity | reflexivity].
  - exists {| rate_size := "large"; rate := 35 |}.
    split; [right; left; reflexivity | reflexivity].
  - exists {| rate_size := "large"; rate := 35 |}.
    split; [right; left; reflexivity | reflexivity].
Qed.

Lemma C3_refuel_and_net_total_witness :
exists priced,
  result (calculateServiceFees Fixtures.parkingRates Fixtures.fuelPricePerUnit Fixtures.testCars)
  = JS.Return priced
  /\ Forall2
       (fun v p =>
          car p = v
          /\ (needsRefuel v = true
              <-> 0 <= level (fuel v) * 100 /\ level (fuel v) * 100 <= 10)
          /\ fuelAdded p == unitsToFuel (calculateUnitsToFuel Fixtures.fuelPricePerUnit v)
          /\ exists fuelFee parkingFee,
               netTotal p == fuelFee + parkingFee
               /\ fuelFee
                  == totalFuelPrice (calculateUnitsToFuel Fixtures.fuelPricePerUnit v)
               /\ (exists before x after,
                      Fixtures.parkingRates = before ++ x :: after
                      /\ rate_size x = size v
                      /\ (forall r, In r before -> rate_size r <> size v)
                      /\ parkingFee = rate x)
               /\ (0 <= level (fuel v) * 100 /\ level (fuel v) * 100 <= 10 ->
                   fuelAdded p
                   == capacity (fuel v) - capacity (fuel v) * level (fuel v)
                   /\ fuelFee == fuelAdded p * Fixtures.fuelPricePerUnit)
               /\ (level (fuel v) * 100 < 0 \/ 10 < level (fuel v) * 100 ->
                   fuelAdded p == 0 /\ fuelFee == 0))
       Fixtures.testCars priced.
Proof.
  apply (@C3_refuel_and_net_total Fixtures.parkingRates
           Fixtures.fuelPricePerUnit Fixtures.testCars).
  exact known_sizes_of_testCars.
Defined.

(** The pool is empty and nothing is thrown; and an unknown size raises a
    TypeError. *)
Lemma C4_counterexample :
  result (assignJobLoads [] []) = JS.Return []
  /\ result (calculateServiceFees Fixtures.parkingRates Fixtures.fuelPricePerUnit
               [Fixtures.carA; Fixtures.carM])
     = JS.Throw (JS.TypeError "Cannot read property 'rate' of undefined").
Proof.
  split; reflexivity.
Qed.

(** The end-to-end example of the pricing stage, with the default rates
    (25 and 35) and fuel price (1.75). *)
Example calculateServiceFees_testCars :
  exists a b c d,
    result (calculateServiceFees Fixtures.parkingRates Fixtures.fuelPricePerUnit
              Fixtures.testCars)
    = JS.Return [a; b; c; d]
    /\ (fuelAdded a == 9 /\ netTotal a == 5075 # 100)
    /\ (fuelAdded b == 9 /\ netTotal b == 4075 # 100)
    /\ (fuelAdded c == 0 /\ netTotal c == 35)
    /\ (fuelAdded d == 0 /\ netTotal d == 35).
Proof.
  do 4 eexists. split; [reflexivity|]. repeat split.
Qed.

(** ** Rounding of [dividedBy] *)

Lemma scale_positive (dp : nat) : 0 < BigNumber.scale dp.
Proof.
  unfold BigNumber.scale. rewrite <- (Zlt_Qlt 0).
  apply Z.pow_pos_nonneg; lia.
Qed.

Lemma scale_nonzero (dp : nat) : ~ BigNumber.scale dp == 0.
Proof.
  intros E. pose proof (scale_positive dp) as S. rewrite E in S.
  exact (Qlt_irrefl _ S).
Qed.

(** The integer nearest to [v] is within 1/2 of it. *)
Lemma nearest_within_half (v : Q) :
  inject_Z (Qfloor (v + (1 # 2))) - v <= 1 # 2
  /\ v - inject_Z (Qfloor (v + (1 # 2))) <= 1 # 2.
Proof.
  pose proof (Qfloor_le (v + (1 # 2))) as L.
  pose proof (Qlt_floor (v + (1 # 2))) as U.
  rewrite inject_Z_plus in U. apply Qlt_le_weak in U.
  split.
  - qle_by L ltac:(ring).
  - qle_by U ltac:(change (inject_Z 1) with 1; ring).
Qed.

Lemma nearest_of_integer (z : Z) : Qfloor (inject_Z z + (1 # 2)) = z.
Proof.
  unfold Qfloor, inject_Z, Qplus. cbn [Qnum Qden].
  change (Z.pos (1 * 2)) with 2%Z.
  rewrite Z.mul_1_l. symmetry. apply Z.div_unique with (r := 1%Z); lia.
Qed.

Lemma round_half_up_error (dp : nat) (x : Q) :
  Qabs (BigNumber.round_half_up dp x - x) <= (1 # 2) / BigNumber.scale dp.
Proof.
  pose proof (scale_positive dp) as S.
  pose proof (@scale_nonzero dp) as S0.
  apply Qabs_Qle_condition. unfold BigNumber.round_half_up.
  destruct (Qle_bool 0 (x * BigNumber.scale dp)).
  - destruct (nearest_within_half (x * BigNumber.scale dp)) as [U L]. split.
    + setoid_replace (- ((1 # 2) / BigNumber.scale dp))
        with ((- (1 # 2)) / BigNumber.scale dp) by (field; exact S0).
      apply Qle_shift_div_r; [exact S|]. qle_by L ltac:(field; exact S0).
    + apply Qle_shift_div_l; [exact S|]. qle_by U ltac:(field; exact S0).
  - destruct (nearest_within_half (- (x * BigNumber.scale dp))) as [U L]. split.
    + setoid_replace (- ((1 # 2) / BigNumber.scale dp))
        with ((- (1 # 2)) / BigNumber.scale dp) by (field; exact S0).
      apply Qle_shift_div_r; [exact S|]. qle_by U ltac:(field; exact S0).
    + apply Qle_shift_div_l; [exact S|]. qle_by L ltac:(field; exact S0).
Qed.

(** A value with at most [dp] decimal places is not changed. *)
Lemma round_half_up_exact (dp : nat) (x : Q) (z : Z) :
  x * BigNumber.scale dp == inject_Z z -> BigNumber.round_half_up dp x == x.
Proof.
  intros E. pose proof (@scale_nonzero dp) as S0.
  assert (X : x == inject_Z z / BigNumber.scale dp).
  { rewrite <- E. field. exact S0. }
  unfold BigNumber.round_half_up.
  destruct (Qle_bool 0 (x * BigNumber.scale dp)).
  - rewrite (Qfloor_comp _ (inject_Z z + (1 # 2))) by (rewrite E; reflexivity).
    rewrite nearest_of_integer. symmetry. exact X.
  - rewrite (Qfloor_comp _ (inject_Z (- z) + (1 # 2)))
      by (rewrite E, inject_Z_opp; reflexivity).
    rewrite nearest_of_integer, inject_Z_opp, X. field. exact S0.
Qed.

(** ** [addEmployeeCommission] *)

Lemma commissionOf_negative (j : AssignedJob) :
  commissionPct (emp (load j)) < 0 ->
  totalToPay (fst (commissionOf j)) == netTotal (job j)
  /\ snd (commissionOf j)
     = [CommissionOutOfRange (commissionPct (emp (load j))) (name (emp (load j)))].
Proof.
  intros H. unfold commissionOf, BigNumber.isLessThan.
  apply Qlt_bool_iff in H. rewrite H. cbn [fst snd totalToPay].
  split; [unfold BigNumber.plus; ring | reflexivity].
Qed.

Lemma commissionOf_nonnegative (j : AssignedJob) :
  0 <= commissionPct (emp (load j)) ->
  totalToPay (fst (commissionOf j))
  == netTotal (job j)
     + BigNumber.round_half_up 5
         (netTotal (job j) * commissionPct (emp (load j)) / 100)
  /\ snd (commissionOf j) = [].
Proof.
  intros H. unfold commissionOf, BigNumber.isLessThan.
  apply Qlt_bool_false_iff in H. rewrite H. cbn [fst snd totalToPay].
  split; reflexivity.
Qed.

Lemma commissionOf_assigned (j : AssignedJob) : assigned (fst (commissionOf j)) = j.
Proof.
  unfold commissionOf. destruct (BigNumber.isLessThan _ _); reflexivity.
Qed.

(** C5, as the code has it: [addEmployeeCommission] returns one payable
    job for each job it is given, in the same order and around the same
    job.  For [commissionPct >= 0] the commission is
    [netTotal * commissionPct / 100] rounded half up to 5 decimal places
    (the division is a [dividedBy]), so [totalToPay] is within 0.000005 of
    [netTotal + netTotal * commissionPct / 100] and equal to it when the
    commission has at most 5 decimal places; no upper bound is put on the
    percentage.  For [commissionPct < 0] the commission is 0 and
    [totalToPay] is [netTotal].  The console receives one warning for
    each job of negative percentage, in order, and nothing is thrown. *)
Theorem C5_commission (jobLoads : list AssignedJob) :
  exists payable,
    result (addEmployeeCommission jobLoads) = JS.Return payable
    /\ List.length payable = List.length jobLoads
    /\ List.map assigned payable = jobLoads
    /\ Forall
         (fun p =>
            let net := netTotal (job (assigned p)) in
            let pct := commissionPct (emp (load (assigned p))) in
            (0 <= pct ->
             totalToPay p == net + BigNumber.round_half_up 5 (net * pct / 100)
             /\ Qabs (totalToPay p - (net + net * pct / 100)) <= 1 # 200000
             /\ (forall z, net * pct * 1000 == inject_Z z ->
                           totalToPay p == net + net * pct / 100))
            /\ (pct < 0 -> totalToPay p == net))
         payable
    /\ console (addEmployeeCommission jobLoads)
       = List.map
           (fun j => CommissionOutOfRange (commissionPct (emp (load j)))
                       (name (emp (load j))))
           (filter (fun j => BigNumber.isLessThan (commissionPct (emp (load j))) 0)
              jobLoads).
Proof.
  unfold addEmployeeCommission. cbn [result console].
  eexists. split; [reflexivity|].
  split; [rewrite !length_map; reflexivity|].
  split; [|split].
  - rewrite !map_map. rewrite <- (map_id jobLoads) at 2.
    apply map_ext. intros j. apply commissionOf_assigned.
  - rewrite map_map. apply Forall_forall. intros p Hp.
    apply in_map_iff in Hp. destruct Hp as (j & <- & _).
    rewrite commissionOf_assigned. cbv zeta. split.
    + intros H. destruct (commissionOf_nonnegative j H) as [T _].
      split; [exact T|]. split.
      * setoid_replace
          (totalToPay (fst (commissionOf j))
           - (netTotal (job j)
              + netTotal (job j) * commissionPct (emp (load j)) / 100))
          with (BigNumber.round_half_up 5
                  (netTotal (job j) * commissionPct (emp (load j)) / 100)
                - netTotal (job j) * commissionPct (emp (load j)) / 100)
          by (rewrite T; ring).
        apply (round_half_up_error 5).
      * intros z Hz. rewrite T. apply Qplus_inj_l.
        apply round_half_up_exact with (z := z).
        rewrite <- Hz. change (BigNumber.scale 5) with (100000 # 1). field.
    + intros H. apply (commissionOf_negative j H).
  - induction jobLoads as [|j js IH]; [reflexivity|].
    cbn [List.map List.concat filter]. rewrite IH.
    unfold commissionOf at 1.
    destruct (BigNumber.isLessThan (commissionPct (emp (load j))) 0); reflexivity.
Qed.

(** The job of a large vehicle found at 5% of a capacity of 10, with an
    employee paid 12.5%: the exact commission, 6.453125, has six decimal
    places, and [totalToPay] is 58.07813, not 58.078125. *)
Lemma C5_counterexample :
  (exists p,
      result (calculateServiceFees Fixtures.parkingRates Fixtures.fuelPricePerUnit
                [Fixtures.carE])
      = JS.Return [p]
      /\ car p = car Fixtures.jobE
      /\ fuelAdded p == fuelAdded Fixtures.jobE
      /\ netTotal p == netTotal Fixtures.jobE)
  /\ result (addEmployeeCommission [Fixtures.jobE_robert])
     = JS.Return [fst (commissionOf Fixtures.jobE_robert)]
  /\ totalToPay (fst (commissionOf Fixtures.jobE_robert)) == 5807813 # 100000
  /\ netTotal Fixtures.jobE
     + netTotal Fixtures.jobE * commissionPct Fixtures.robert / 100
     == 58078125 # 1000000
  /\ Qeq_bool (totalToPay (fst (commissionOf Fixtures.jobE_robert)))
       (netTotal Fixtures.jobE
        + netTotal Fixtures.jobE * commissionPct Fixtures.robert / 100)
     = false.
Proof.
  split.
  - eexists. split; [reflexivity|]. repeat split.
  - repeat split; vm_compute; reflexivity.
Qed.

(** ** What the stages do to the arrays they are given *)

Lemma assignJobLoads_cells (employees : list Employee) (queue : list PricedJob) :
  fst (cells (assignJobLoads employees queue))
  = Array.sort byCommissionPct employees
  /\ (exists handedOut,
        Array.sort byNetTotal queue
        = handedOut ++ snd (cells (assignJobLoads employees queue)))
  /\ (forall jobs,
        result (assignJobLoads employees queue) = JS.Return jobs ->
        snd (cells (assignJobLoads employees queue)) = []
        /\ List.map job jobs = Array.sort byNetTotal queue).
Proof.
  assert (D : employees = [] \/ employees <> []).
  { destruct employees; [left; reflexivity | right; discriminate]. }
  destruct D as [->|Hne].
  - rewrite assignJobLoads_no_employees. cbn [cells result fst snd].
    split; [reflexivity|]. split.
    + exists []. reflexivity.
    + intros jobs H. destruct queue as [|j q]; [|discriminate].
      injection H as <-. split; reflexivity.
  - rewrite (assignJobLoads_nonempty queue Hne). cbn [cells result fst snd].
    set (n := (chunk (List.length queue) (List.length employees)
               * List.length employees)%nat).
    split; [reflexivity|]. split.
    + exists (firstn n (Array.sort byNetTotal queue)).
      symmetry. apply firstn_skipn.
    + intros jobs H.
      destruct (Nat.ltb_spec 0 (List.length (skipn n (Array.sort byNetTotal queue))))
        as [L|L]; [discriminate|].
      injection H as <-.
      assert (Z : skipn n (Array.sort byNetTotal queue) = []).
      { apply length_zero_iff_nil. lia. }
      split; [exact Z|].
      rewrite handOut_jobs, sortedEmployees_length. fold n.
      rewrite <- (firstn_skipn n (Array.sort byNetTotal queue)) at 2.
      rewrite Z, app_nil_r. reflexivity.
Qed.

(** C7, as the code has it: [calculateServiceFees],
    [addEmployeeCommission] and [makeMePretty] leave the array they are
    given as it was.  [assignJobLoads] sorts both of its arrays in place
    and takes the jobs it hands out off the queue: afterwards the
    employees' array holds the same employees by descending
    [commissionPct], equal percentages in their former order, and the
    queue holds what is left of the sorted jobs behind those handed out,
    which is nothing when the call returns. *)
Theorem C7_arrays_afterwards (parkingRates : list ParkingRate)
  (fuelPricePerUnit : Q) (number : Type) (toNumber : Q -> number)
  (queue : list Vehicle) (employees : list Employee)
  (pricedQueue : list PricedJob) (jobLoads : list AssignedJob)
  (payable : list PayableJob) :
  cells (calculateServiceFees parkingRates fuelPricePerUnit queue) = queue
  /\ cells (addEmployeeCommission jobLoads) = jobLoads
  /\ cells (makeMePretty toNumber payable) = payable
  /\ Permutation (fst (cells (assignJobLoads employees pricedQueue))) employees
  /\ StronglySorted (notBelow commissionPct)
       (fst (cells (assignJobLoads employees pricedQueue)))
  /\ (forall k,
        filter (hasKey commissionPct k)
          (fst (cells (assignJobLoads employees pricedQueue)))
        = filter (hasKey commissionPct k) employees)
  /\ (exists handedOut,
        Array.sort byNetTotal pricedQueue
        = handedOut ++ snd (cells (assignJobLoads employees pricedQueue)))
  /\ (forall jobs,
        result (assignJobLoads employees pricedQueue) = JS.Return jobs ->
        snd (cells (assignJobLoads employees pricedQueue)) = []
        /\ List.map job jobs = Array.sort byNetTotal pricedQueue).
Proof.
  destruct (assignJobLoads_cells employees pricedQueue) as (E & Q & R).
  rewrite E.
  split; [reflexivity|]. split; [reflexivity|]. split; [reflexivity|].
  split; [apply (sort_Permutation commissionPct)|].
  split; [apply (sort_sorted commissionPct)|].
  split; [intros k; apply (sort_stable commissionPct)|].
  split; [exact Q | exact R].
Qed.

(** After the call of the test "should assign job loads" the caller's
    employees are in another order and the caller's queue is empty. *)
Lemma C7_counterexample :
  Fixtures.testEmployees = [Fixtures.ian; Fixtures.alan]
  /\ Fixtures.testQueue
     = [Fixtures.jobD; Fixtures.jobA; Fixtures.jobC; Fixtures.jobB]
  /\ cells (assignJobLoads Fixtures.testEmployees Fixtures.testQueue)
     = ([Fixtures.alan; Fixtures.ian], []).
Proof.
  repeat split.
Qed.

(** ** [makeMePretty] *)

Section PresenterFacts.

Variable number : Type.
Variable toNumber : Q -> number.

(** What [makeMePretty] returns: one object for each job, in the same
    order, and nothing else is changed.  Each object has the keys
    [licencePlate], [employee], [fuelAdded] and [price], holding the
    job's [licencePlate], the [name] of its employee, and [toNumber()] of
    its [fuelAdded] and of its [totalToPay]. *)
Lemma makeMePretty_receipts (jobLoads : list PayableJob) :
  exists receipts,
    result (makeMePretty toNumber jobLoads) = JS.Return receipts
    /\ cells (makeMePretty toNumber jobLoads) = jobLoads
    /\ console (makeMePretty toNumber jobLoads) = []
    /\ List.length receipts = List.length jobLoads
    /\ Forall2
         (fun j r =>
            keys r = ["licencePlate"; "employee"; "fuelAdded"; "price"]
            /\ get "licencePlate" r
               = Some (VString (licencePlate (car (job (assigned j)))))
            /\ get "employee" r
               = Some (VString (name (emp (load (assigned j)))))
            /\ get "fuelAdded" r
               = Some (VNumber (toNumber (fuelAdded (job (assigned j)))))
            /\ get "price" r = Some (VNumber (toNumber (totalToPay j))))
         jobLoads receipts.
Proof.
  eexists. split; [reflexivity|]. split; [reflexivity|].
  split; [reflexivity|]. split; [apply length_map|].
  induction jobLoads as [|j js IH]; constructor; [|exact IH].
  repeat split.
Qed.

End PresenterFacts.

(** C9 (code at a failing input): the object made for the first job of
    the test "should make things pretty" holds the name of the employee
    under the key [employee]: it has no key [employeeName], and no key
    [name], which is the key the test expects.  (The conversion to a
    number is taken as the identity here; the keys do not depend on
    it.) *)
Theorem C9_name_under_key_employee :
  get "employeeName" (pretty (fun q : Q => q) Fixtures.payableA) = None
  /\ get "name" (pretty (fun q : Q => q) Fixtures.payableA) = None
  /\ get "employee" (pretty (fun q : Q => q) Fixtures.payableA)
     = Some (VString "Alan Grant")
  /\ keys (pretty (fun q : Q => q) Fixtures.payableA)
     = ["licencePlate"; "employee"; "fuelAdded"; "price"].
Proof.
  repeat split.
Qed.

(** ** The pipeline on the example of the specification *)

(** Vehicles A to D with the employees Ian (11%) and Alan (15%): Alan is
    given A and B, Ian C and D, and A costs 50.75 * 1.15 = 58.3625.  The
    array of employees is left sorted.  (The conversion to a number is
    taken as the reduction of the fraction.) *)
Example jurassicParking_example :
  result (jurassicParking Fixtures.parkingRates Fixtures.fuelPricePerUnit
            Qred Fixtures.testEmployees Fixtures.testCars)
  = JS.Return
      [ [ ("licencePlate", VString "A"); ("employee", VString "Alan Grant");
          ("fuelAdded", VNumber 9); ("price", VNumber (Qred (583625 # 10000))) ];
        [ ("licencePlate", VString "B"); ("employee", VString "Alan Grant");
          ("fuelAdded", VNumber 9); ("price", VNumber (Qred (468625 # 10000))) ];
        [ ("licencePlate", VString "C"); ("employee", VString "Ian Malcolm");
          ("fuelAdded", VNumber 0); ("price", VNumber (Qred (3885 # 100))) ];
        [ ("licencePlate", VString "D"); ("employee", VString "Ian Malcolm");
          ("fuelAdded", VNumber 0); ("price", VNumber (Qred (3885 # 100))) ] ]
  /\ cells (jurassicParking Fixtures.parkingRates Fixtures.fuelPricePerUnit
              Qred Fixtures.testEmployees Fixtures.testCars)
     = ([Fixtures.alan; Fixtures.ian], Fixtures.testCars).
Proof.
  split; vm_compute; reflexivity.
Qed.

(** ** Further properties of [assignJobLoads] *)

Lemma assignJobLoads_returns_iff_witness :
  ((4 <= 2)%nat \/ (4 mod 2 = 0)%nat ->
   exists jobs,
     result (assignJobLoads Fixtures.testEmployees Fixtures.testQueue)
     = JS.Return jobs)
  /\ (~ ((4 <= 2)%nat \/ (4 mod 2 = 0)%nat) ->
      result (assignJobLoads Fixtures.testEmployees Fixtures.testQueue)
      = JS.Throw UNASSIGNED).
Proof.
  apply (@assignJobLoads_returns_iff Fixtures.testEmployees Fixtures.testQueue).
  discriminate.
Defined.

(** With an employee in the pool, the loads the loop starts from are the
    chunk size for every employee, the first one included, whatever the
    number of jobs: the statement that adds the leftover is never run. *)
Theorem leftover_never_added (sortedEmployees : list Employee) (totalJobs : nat) :
  sortedEmployees <> [] ->
  exists jobLoads,
    jobLoadsOf sortedEmployees totalJobs = JS.Return jobLoads
    /\ List.map emp jobLoads = sortedEmployees
    /\ Forall
         (fun l =>
            numJobs l
            = chunkSizeOf (JS.of_nat totalJobs)
                (JS.of_nat (List.length sortedEmployees)))
         jobLoads.
Proof.
  intros Hne.
  assert (HE : (0 < List.length sortedEmployees)%nat).
  { destruct sortedEmployees; [congruence | simpl; lia]. }
  rewrite (jobLoadsOf_nonempty totalJobs Hne), (chunkSizeOf_spec totalJobs HE).
  eexists. split; [reflexivity|]. split.
  - rewrite map_map. cbn [emp loadOf]. apply map_id.
  - apply Forall_forall. intros l Hl. apply in_map_iff in Hl.
    destruct Hl as (e & <- & _). reflexivity.
Qed.

Lemma leftover_never_added_witness :
  exists jobLoads,
    jobLoadsOf [Fixtures.alan; Fixtures.ian] 3 = JS.Return jobLoads
    /\ List.map emp jobLoads = [Fixtures.alan; Fixtures.ian]
    /\ Forall
         (fun l => numJobs l = chunkSizeOf (JS.of_nat 3) (JS.of_nat 2))
         jobLoads.
Proof.
  apply (@leftover_never_added [Fixtures.alan; Fixtures.ian] 3).
  discriminate.
Defined.

(** ** Sorting an array that is sorted already *)

Section SortAgain.

Context {A : Type} (key : A -> Q).

Lemma insert_in_front (x : A) (l : list A) :
  StronglySorted (notBelow key) (x :: l) ->
  Array.insert (descending key) x l = x :: l.
Proof.
  intros S. destruct l as [|y l]; [reflexivity|].
  inversion S as [|? ? _ Hall]; subst.
  inversion Hall as [|? ? Hy _]; subst.
  simpl. destruct (JS.Qlt_bool 0 (descending key x y)) eqn:E; [|reflexivity].
  apply moved_behind_iff in E. exfalso. exact (Qlt_not_le _ _ E Hy).
Qed.

Lemma sort_of_sorted (l : list A) :
  StronglySorted (notBelow key) l -> Array.sort (descending key) l = l.
Proof.
  induction l as [|x l IH]; intros S; [reflexivity|].
  simpl. inversion S as [|? ? Sl _]; subst.
  rewrite (IH Sl). apply insert_in_front, S.
Qed.

Lemma sort_idempotent (l : list A) :
  Array.sort (descending key) (Array.sort (descending key) l)
  = Array.sort (descending key) l.
Proof. apply sort_of_sorted, sort_sorted. Qed.

End SortAgain.

(** ** The consuming loop, whatever the loads *)

(** The loop neither drops nor repeats a job, whatever [numJobs] holds
    (a fraction, NaN and Infinity included): the jobs it adds to [jobs],
    followed by what it leaves in the queue, are the queue it started
    from, in order, and each is paired with one of the loads. *)
Theorem consume_conserves (jobLoads : list JobLoad) :
  forall (sortedQueue : list PricedJob) (jobs : list AssignedJob),
  exists added,
    snd (consume jobLoads sortedQueue jobs) = jobs ++ added
    /\ List.map job added ++ fst (consume jobLoads sortedQueue jobs)
       = sortedQueue
    /\ Forall (fun a => In (load a) jobLoads) added.
Proof.
  induction jobLoads as [|e others IH]; intros sortedQueue jobs.
  - exists []. cbn [consume fst snd List.map app].
    rewrite app_nil_r. repeat split. constructor.
  - cbn [consume]. unfold Array.splice0.
    set (k := JS.deleteCount (numJobs e) (List.length sortedQueue)).
    assert (Hfirst : Forall (fun a => In (load a) (e :: others))
                       (List.map (fun j => {| load := e; job := j |})
                          (firstn k sortedQueue))).
    { apply Forall_forall. intros a Ha. apply in_map_iff in Ha.
      destruct Ha as (j & <- & _). left. reflexivity. }
    assert (Hjobs : List.map job
                      (List.map (fun j => {| load := e; job := j |})
                         (firstn k sortedQueue))
                    = firstn k sortedQueue).
    { rewrite map_map. apply map_id. }
    destruct (List.length (skipn k sortedQueue) =? 0)%nat.
    + eexists. cbn [fst snd]. split; [reflexivity|]. split; [|exact Hfirst].
      rewrite Hjobs. apply firstn_skipn.
    + destruct (IH (skipn k sortedQueue)
                  (jobs ++ List.map (fun j => {| load := e; job := j |})
                             (firstn k sortedQueue)))
        as (added & Hs & Hq & Hin).
      eexists. split; [rewrite Hs, <- app_assoc; reflexivity|]. split.
      * rewrite map_app, Hjobs, <- app_assoc, Hq. apply firstn_skipn.
      * apply Forall_app. split; [exact Hfirst|].
        apply Forall_forall. intros a Ha. rewrite Forall_forall in Hin.
        right. apply Hin, Ha.
Qed.

(** ** [assignJobLoads]: what a return and what a throw mean *)

Lemma assignJobLoads_returned (employees : list Employee)
  (queue : list PricedJob) (jobs : list AssignedJob) :
  result (assignJobLoads employees queue) = JS.Return jobs ->
  List.map job jobs = Array.sort byNetTotal queue
  /\ Forall
       (fun a =>
          In (emp (load a)) employees
          /\ numJobs (load a)
             = chunkSizeOf (JS.of_nat (List.length queue))
                 (JS.of_nat (List.length employees)))
       jobs.
Proof.
  intros H.
  split; [apply (proj2 (proj2 (assignJobLoads_cells employees queue)) jobs H)|].
  assert (D : employees = [] \/ employees <> []).
  { destruct employees; [left; reflexivity | right; discriminate]. }
  destruct D as [->|Hne].
  - rewrite assignJobLoads_no_employees in H. cbn [result] in H.
    destruct queue; [|discriminate]. injection H as <-. constructor.
  - assert (HE : (0 < List.length employees)%nat).
    { destruct employees; [congruence | simpl; lia]. }
    rewrite (assignJobLoads_nonempty queue Hne) in H. cbn [result] in H.
    destruct (0 <? _)%nat; [discriminate|]. injection H as <-.
    rewrite (chunkSizeOf_spec (List.length queue) HE).
    set (c := chunk (List.length queue) (List.length employees)).
    destruct (handOut_sorted c (sort_sorted commissionPct employees)
                (Array.sort byNetTotal queue)) as [_ Hin].
    pose proof (handOut_numJobs c (Array.sort byCommissionPct employees)
                  (Array.sort byNetTotal queue)) as Hnum.
    rewrite Forall_forall in Hin, Hnum. apply Forall_forall. intros a Ha.
    split; [|apply Hnum, Ha].
    apply (sort_In commissionPct). apply Hin, Ha.
Qed.

(** Whenever [assignJobLoads] returns, for an empty pool too, its result
    holds every job of the queue once and no other job, each with an
    employee of the pool and with [numJobs] equal to the chunk size. *)
Theorem assignJobLoads_each_job_once (employees : list Employee)
  (queue : list PricedJob) (jobs : list AssignedJob) :
  result (assignJobLoads employees queue) = JS.Return jobs ->
  List.length jobs = List.length queue
  /\ Permutation (List.map job jobs) queue
  /\ Forall
       (fun a =>
          In (emp (load a)) employees
          /\ numJobs (load a)
             = chunkSizeOf (JS.of_nat (List.length queue))
                 (JS.of_nat (List.length employees)))
       jobs.
Proof.
  intros H. destruct (assignJobLoads_returned _ _ H) as [Hjobs Hall].
  split; [|split; [|exact Hall]].
  - rewrite <- (length_map job), Hjobs. apply sortedQueue_length.
  - rewrite Hjobs. apply sort_permutes.
Qed.

Lemma assignJobLoads_each_job_once_witness :
  List.length Fixtures.testAssignment = List.length Fixtures.testQueue
  /\ Permutation (List.map job Fixtures.testAssignment) Fixtures.testQueue
  /\ Forall
       (fun a =>
          In (emp (load a)) Fixtures.testEmployees
          /\ numJobs (load a)
             = chunkSizeOf (JS.of_nat (List.length Fixtures.testQueue))
                 (JS.of_nat (List.length Fixtures.testEmployees)))
       Fixtures.testAssignment.
Proof.
  apply (@assignJobLoads_each_job_once Fixtures.testEmployees Fixtures.testQueue).
  vm_compute. reflexivity.
Defined.

Lemma unassigned_tail (n : nat) (queue : list PricedJob) :
  exists taken,
    Permutation (taken ++ skipn n (Array.sort byNetTotal queue)) queue
    /\ (wellSeparated queue ->
        forall t l, In t taken ->
                    In l (skipn n (Array.sort byNetTotal queue)) ->
                    netTotal l <= netTotal t).
Proof.
  exists (firstn n (Array.sort byNetTotal queue)). split.
  - rewrite firstn_skipn. apply sort_permutes.
  - intros W. rewrite (@sortedQueue_exact queue W).
    pose proof (sort_sorted netTotal queue) as S.
    rewrite <- (firstn_skipn n (Array.sort (descending netTotal) queue)) in S.
    apply sorted_app_below in S. destruct S as [_ S]. exact S.
Qed.

(** The only error [assignJobLoads] raises is the one of its sanity check
    (the assignment to [jobLoads[0]] never meets an empty array), and it
    raises it with jobs of the queue left in the caller's array: all of
    them when the pool is empty, and otherwise [jobs mod employees] of
    them, there being more jobs than employees.  On a well separated
    queue the jobs left are of no greater [netTotal] than those taken. *)
Theorem assignJobLoads_throws_only_unassigned (employees : list Employee)
  (queue : list PricedJob) (e : JS.exn) :
  result (assignJobLoads employees queue) = JS.Throw e ->
  e = UNASSIGNED
  /\ queue <> []
  /\ snd (cells (assignJobLoads employees queue)) <> []
  /\ (exists taken,
        Permutation (taken ++ snd (cells (assignJobLoads employees queue))) queue
        /\ (wellSeparated queue ->
            forall t l, In t taken ->
                        In l (snd (cells (assignJobLoads employees queue))) ->
                        netTotal l <= netTotal t))
  /\ (employees = [] ->
      List.length (snd (cells (assignJobLoads employees queue)))
      = List.length queue)
  /\ (employees <> [] ->
      (List.length employees < List.length queue)%nat
      /\ List.length (snd (cells (assignJobLoads employees queue)))
         = (List.length queue mod List.length employees)%nat).
Proof.
  intros H.
  assert (D : employees = [] \/ employees <> []).
  { destruct employees; [left; reflexivity | right; discriminate]. }
  destruct D as [->|Hne].
  - rewrite assignJobLoads_no_employees in *. cbn [result cells snd] in *.
    destruct queue as [|j q]; [discriminate|]. injection H as <-.
    split; [reflexivity|]. split; [discriminate|].
    split; [|split; [|split; [intros _; apply sortedQueue_length | congruence]]].
    + intros Z. apply (f_equal (@List.length _)) in Z.
      rewrite sortedQueue_length in Z. discriminate.
    + exact (unassigned_tail 0 (j :: q)).
  - assert (HE : (0 < List.length employees)%nat).
    { destruct employees; [congruence | simpl; lia]. }
    rewrite (assignJobLoads_nonempty queue Hne) in *.
    cbn [result cells snd] in *.
    set (J := List.length queue) in *. set (E := List.length employees) in *.
    rewrite length_skipn, sortedQueue_length in *. fold J in H |- *.
    destruct (Nat.ltb_spec 0 (J - chunk J E * E)) as [L|L]; [|discriminate].
    injection H as <-.
    assert (HJE : (E < J)%nat /\ (chunk J E * E = J - J mod E)%nat).
    { unfold chunk in *. destruct (Nat.ltb_spec E J) as [G|G]; [|lia].
      split; [exact G|]. pose proof (Nat.Div0.mod_eq J E).
      pose proof (Nat.Div0.mul_div_le J E). lia. }
    destruct HJE as [HJ HC].
    pose proof (Nat.Div0.mod_le J E) as ML.
    split; [reflexivity|].
    split; [intros Z; subst J; rewrite Z in HJ; simpl in HJ; lia|].
    split; [|split; [apply unassigned_tail | split; [congruence|]]].
    + intros Z. apply (f_equal (@List.length _)) in Z.
      rewrite length_skipn, sortedQueue_length in Z. fold J in Z.
      simpl in Z. lia.
    + intros _. split; [exact HJ|]. lia.
Qed.

Lemma assignJobLoads_throws_only_unassigned_witness :
  UNASSIGNED = UNASSIGNED
  /\ [Fixtures.jobD; Fixtures.jobA; Fixtures.jobC] <> []
  /\ snd (cells (assignJobLoads Fixtures.testEmployees
                   [Fixtures.jobD; Fixtures.jobA; Fixtures.jobC])) <> []
  /\ (exists taken,
        Permutation
          (taken ++ snd (cells (assignJobLoads Fixtures.testEmployees
                                  [Fixtures.jobD; Fixtures.jobA; Fixtures.jobC])))
          [Fixtures.jobD; Fixtures.jobA; Fixtures.jobC]
        /\ (wellSeparated [Fixtures.jobD; Fixtures.jobA; Fixtures.jobC] ->
            forall t l,
              In t taken ->
              In l (snd (cells (assignJobLoads Fixtures.testEmployees
                                  [Fixtures.jobD; Fixtures.jobA; Fixtures.jobC]))) ->
              netTotal l <= netTotal t))
  /\ (Fixtures.testEmployees = [] ->
      List.length
        (snd (cells (assignJobLoads Fixtures.testEmployees
                       [Fixtures.jobD; Fixtures.jobA; Fixtures.jobC])))
      = List.length [Fixtures.jobD; Fixtures.jobA; Fixtures.jobC])
  /\ (Fixtures.testEmployees <> [] ->
      (List.length Fixtures.testEmployees
       < List.length [Fixtures.jobD; Fixtures.jobA; Fixtures.jobC])%nat
      /\ List.length
           (snd (cells (assignJobLoads Fixtures.testEmployees
                          [Fixtures.jobD; Fixtures.jobA; Fixtures.jobC])))
         = (List.length [Fixtures.jobD; Fixtures.jobA; Fixtures.jobC]
            mod List.length Fixtures.testEmployees)%nat).
Proof.
  apply (@assignJobLoads_throws_only_unassigned Fixtures.testEmployees
           [Fixtures.jobD; Fixtures.jobA; Fixtures.jobC]).
  vm_compute. reflexivity.
Defined.

(** A later call that is given the arrays as an earlier call left them
    behaves as if it were given the employees in their first order: the
    pool sorted in place sorts to itself. *)
Theorem assignJobLoads_on_sorted_pool (employees : list Employee)
  (earlier queue : list PricedJob) :
  assignJobLoads (fst (cells (assignJobLoads employees earlier))) queue
  = assignJobLoads employees queue.
Proof.
  rewrite (proj1 (assignJobLoads_cells employees earlier)).
  unfold assignJobLoads.
  change (Array.sort byCommissionPct (Array.sort byCommissionPct employees))
    with (Array.sort (descending commissionPct)
            (Array.sort (descending commissionPct) employees)).
  rewrite sort_idempotent. reflexivity.
Qed.

(** ** More on [calculateServiceFees] *)

Lemma parkingRateOf_first_match (before after : list ParkingRate)
  (x : ParkingRate) (c : Vehicle) :
  rate_size x = size c ->
  (forall r, In r before -> rate_size r <> size c) ->
  parkingRateOf (before ++ x :: after) c = JS.Return (rate x).
Proof.
  intros Hx Hb. unfold parkingRateOf. rewrite filter_app.
  assert (F : filter (fun r => String.eqb (rate_size r) (size c)) before = []).
  { induction before as [|r before IH]; [reflexivity|]. simpl.
    destruct (String.eqb_spec (rate_size r) (size c)) as [E|_].
    - exfalso. apply (Hb r); [left; reflexivity | exact E].
    - apply IH. intros r' Hr'. apply Hb. right. exact Hr'. }
  rewrite F. simpl. apply String.eqb_eq in Hx. rewrite Hx. reflexivity.
Qed.

(** The parking fee of a vehicle is the rate of the first entry of
    [parkingRates] with its size: entries behind it with the same size
    are never read. *)
Theorem parking_fee_of_first_match (before after : list ParkingRate)
  (x : ParkingRate) (fuelPricePerUnit : Q) (queue : list Vehicle)
  (priced : list PricedJob) :
  result (calculateServiceFees (before ++ x :: after) fuelPricePerUnit queue)
  = JS.Return priced ->
  Forall2
    (fun v p =>
       rate_size x = size v ->
       (forall r, In r before -> rate_size r <> size v) ->
       netTotal p
       == totalFuelPrice (calculateUnitsToFuel fuelPricePerUnit v) + rate x)
    queue priced.
Proof.
  intros H. cbn [calculateServiceFees result] in H. apply map_returns in H.
  induction H as [|v p vs ps Hvp _ IH]; constructor; [|exact IH].
  intros Hx Hb.
  destruct (serviceFee_returns _ _ _ Hvp) as (_ & _ & fee & Hr & Hn).
  rewrite (@parkingRateOf_first_match before after x v Hx Hb) in Hr.
  injection Hr as <-. rewrite Hn. reflexivity.
Qed.

Lemma parking_fee_of_first_match_witness :
  Forall2
    (fun v p =>
       rate_size {| rate_size := "large"; rate := 35 |} = size v ->
       (forall r, In r [ {| rate_size := "small"; rate := 25 |} ] ->
                  rate_size r <> size v) ->
       netTotal p
       == totalFuelPrice (calculateUnitsToFuel Fixtures.fuelPricePerUnit v) + 35)
    [Fixtures.carD; Fixtures.carB]
    [ {| car := Fixtures.carD; fuelAdded := 0; netTotal := 0 + 35 |};
      {| car := Fixtures.carB;
         fuelAdded := 10 - 10 * (1 # 10);
         netTotal := (10 - 10 * (1 # 10)) * Fixtures.fuelPricePerUnit + 25 |} ].
Proof.
  apply (@parking_fee_of_first_match
           [ {| rate_size := "small"; rate := 25 |} ]
           [ {| rate_size := "large"; rate := 99 |};
             {| rate_size := "small"; rate := 1 |} ]
           {| rate_size := "large"; rate := 35 |}
           Fixtures.fuelPricePerUnit [Fixtures.carD; Fixtures.carB]).
  reflexivity.
Defined.

(** For a vehicle of capacity at least 0, the fuel added lies between 0
    and the capacity; when the vehicle is refuelled it is at least nine
    tenths of the capacity and fills the tank (the fuel it held plus the
    fuel added is the capacity).  With a fuel price of at least 0 the
    fuel fee is at least 0, so [netTotal] is never below the parking
    fee. *)
Theorem fuel_added_within_capacity (parkingRates : list ParkingRate)
  (fuelPricePerUnit : Q) (queue : list Vehicle) (priced : list PricedJob) :
  result (calculateServiceFees parkingRates fuelPricePerUnit queue)
  = JS.Return priced ->
  Forall2
    (fun v p =>
       0 <= capacity (fuel v) ->
       (0 <= fuelAdded p /\ fuelAdded p <= capacity (fuel v))
       /\ (needsRefuel v = true ->
           (9 # 10) * capacity (fuel v) <= fuelAdded p
           /\ capacity (fuel v) * level (fuel v) + fuelAdded p
              == capacity (fuel v))
       /\ (0 <= fuelPricePerUnit ->
           exists parkingFee,
             parkingRateOf parkingRates v = JS.Return parkingFee
             /\ parkingFee <= netTotal p))
    queue priced.
Proof.
  intros H. cbn [calculateServiceFees result] in H. apply map_returns in H.
  induction H as [|v p vs ps Hvp _ IH]; constructor; [|exact IH].
  intros Hcap.
  destruct (serviceFee_returns _ _ _ Hvp) as (_ & Hf & fee & Hr & Hn).
  rewrite Hf, Hn. clear Hf Hn Hvp.
  unfold calculateUnitsToFuel.
  destruct (needsRefuel v) eqn:N.
  - apply needsRefuel_iff in N. destruct N as [N0 N10].
    cbn [unitsToFuel totalFuelPrice].
    unfold BigNumber.minus, BigNumber.multipliedBy.
    split; [split; nra|]. split.
    + intros _. split; [nra | ring].
    + intros Hp. exists fee. split; [exact Hr|].
      assert (0 <= capacity (fuel v) - capacity (fuel v) * level (fuel v)) by nra.
      nra.
  - cbn [unitsToFuel totalFuelPrice].
    split; [split; [apply Qle_refl | exact Hcap]|]. split.
    + discriminate.
    + intros _. exists fee. split; [exact Hr|]. lra.
Qed.

Lemma fuel_added_within_capacity_witness :
  Forall2
    (fun v p =>
       0 <= capacity (fuel v) ->
       (0 <= fuelAdded p /\ fuelAdded p <= capacity (fuel v))
       /\ (needsRefuel v = true ->
           (9 # 10) * capacity (fuel v) <= fuelAdded p
           /\ capacity (fuel v) * level (fuel v) + fuelAdded p
              == capacity (fuel v))
       /\ (0 <= Fixtures.fuelPricePerUnit ->
           exists parkingFee,
             parkingRateOf Fixtures.parkingRates v = JS.Return parkingFee
             /\ parkingFee <= netTotal p))
    [Fixtures.carA]
    [ {| car := Fixtures.carA;
         fuelAdded := 10 - 10 * (1 # 10);
         netTotal := (10 - 10 * (1 # 10)) * Fixtures.fuelPricePerUnit + 35 |} ].
Proof.
  apply (@fuel_added_within_capacity Fixtures.parkingRates
           Fixtures.fuelPricePerUnit [Fixtures.carA]).
  reflexivity.
Defined.

(** ** More on [dividedBy] and [addEmployeeCommission] *)

Lemma round_half_up_nonnegative (dp : nat) (x : Q) :
  0 <= x -> 0 <= BigNumber.round_half_up dp x.
Proof.
  intros Hx. pose proof (scale_positive dp) as S.
  assert (V : 0 <= x * BigNumber.scale dp) by nra.
  unfold BigNumber.round_half_up.
  apply Qle_bool_iff in V. rewrite V. apply Qle_bool_iff in V.
  apply Qle_shift_div_l; [exact S|]. rewrite Qmult_0_l.
  rewrite <- (Zle_Qle 0). rewrite <- (Qfloor_Z 0).
  apply Qfloor_resp_le. change (inject_Z 0) with 0. lra.
Qed.

(** A rounded value has at most [dp] decimal places. *)
Lemma round_half_up_places (dp : nat) (x : Q) :
  exists z, BigNumber.round_half_up dp x * BigNumber.scale dp == inject_Z z.
Proof.
  pose proof (@scale_nonzero dp) as S0. unfold BigNumber.round_half_up.
  destruct (Qle_bool 0 (x * BigNumber.scale dp)).
  - exists (Qfloor (x * BigNumber.scale dp + (1 # 2))). field. exact S0.
  - exists (- Qfloor (- (x * BigNumber.scale dp) + (1 # 2)))%Z.
    rewrite inject_Z_opp. field. exact S0.
Qed.

(** [addEmployeeCommission] always returns.  The commission it adds, the
    difference of [totalToPay] and [netTotal], has at most 5 decimal
    places, and for a [netTotal] of at least 0 it is at least 0 whatever
    the percentage: the total to pay is never below the net total. *)
Theorem commission_never_lowers_the_total (jobLoads : list AssignedJob) :
  exists payable,
    result (addEmployeeCommission jobLoads) = JS.Return payable
    /\ Forall2
         (fun j p =>
            assigned p = j
            /\ (exists z, (totalToPay p - netTotal (job j)) * 100000
                          == inject_Z z)
            /\ (0 <= netTotal (job j) -> netTotal (job j) <= totalToPay p))
         jobLoads payable.
Proof.
  unfold addEmployeeCommission. cbn [result].
  eexists. split; [reflexivity|].
  induction jobLoads as [|j js IH]; [constructor|].
  cbn [List.map]. constructor; [|exact IH].
  split; [apply commissionOf_assigned|].
  destruct (Qlt_le_dec (commissionPct (emp (load j))) 0) as [Neg|Pos].
  - destruct (commissionOf_negative j Neg) as [T _]. split.
    + exists 0%Z. rewrite T. change (inject_Z 0) with 0. ring.
    + intros _. rewrite T. apply Qle_refl.
  - destruct (commissionOf_nonnegative j Pos) as [T _]. split.
    + destruct (round_half_up_places 5
                  (netTotal (job j) * commissionPct (emp (load j)) / 100))
        as (z & Hz).
      exists z. rewrite T, <- Hz.
      change (BigNumber.scale 5) with 100000. ring.
    + intros Hn. rewrite T.
      assert (0 <= BigNumber.round_half_up 5
                     (netTotal (job j) * commissionPct (emp (load j)) / 100)).
      { apply round_half_up_nonnegative.
        apply Qle_shift_div_l; [reflexivity|]. nra. }
      lra.
Qed.

(** ** The pipeline [jurassicParking] *)

Lemma Forall2_In_right {A B} (R : A -> B -> Prop) (l : list A) (l' : list B) (y : B) :
  Forall2 R l l' -> In y l' -> exists x, In x l /\ R x y.
Proof.
  induction 1 as [|x y' l l' Hxy _ IH]; intros Hy; [contradiction|].
  destruct Hy as [->|Hy].
  - exists x. split; [left; reflexivity | exact Hxy].
  - destruct (IH Hy) as (x' & Hx' & HR). exists x'. split; [right|]; assumption.
Qed.

Lemma serviceFee_throws (parkingRates : list ParkingRate) (fuelPricePerUnit : Q)
  (c : Vehicle) (e : JS.exn) :
  serviceFee parkingRates fuelPricePerUnit c = JS.Throw e ->
  e = JS.TypeError "Cannot read property 'rate' of undefined"
  /\ forall r, In r parkingRates -> rate_size r <> size c.
Proof.
  intros H.
  assert (T : parkingRateOf parkingRates c = JS.Throw e
              /\ e = JS.TypeError "Cannot read property 'rate' of undefined").
  { revert H. unfold serviceFee, parkingRateOf.
    destruct (filter _ parkingRates); simpl; intros H; [|discriminate].
    injection H as <-. split; reflexivity. }
  destruct T as [T ->]. split; [reflexivity|].
  apply parkingRateOf_throws_iff. eexists. exact T.
Qed.

Lemma serviceFee_returns_if (parkingRates : list ParkingRate)
  (fuelPricePerUnit : Q) (c : Vehicle) :
  (exists r, In r parkingRates /\ rate_size r = size c) ->
  exists p, serviceFee parkingRates fuelPricePerUnit c = JS.Return p.
Proof.
  intros (r & Hr & E).
  destruct (serviceFee parkingRates fuelPricePerUnit c) as [p|e] eqn:S.
  - exists p. reflexivity.
  - exfalso. apply serviceFee_throws in S. destruct S as [_ S].
    exact (S r Hr E).
Qed.

Lemma serviced_queue (parkingRates : list ParkingRate) (fuelPricePerUnit : Q)
  (queue : list Vehicle) (servicedQueue : list PricedJob) :
  Array.map (serviceFee parkingRates fuelPricePerUnit) queue
  = JS.Return servicedQueue ->
  List.length servicedQueue = List.length queue
  /\ List.map car servicedQueue = queue.
Proof.
  intros H. apply map_returns in H.
  induction H as [|v p vs ps Hvp _ [IHl IHc]]; [split; reflexivity|].
  destruct (serviceFee_returns _ _ _ Hvp) as (Hc & _).
  split; simpl; congruence.
Qed.

(** With an employee in the pool, the outcome of [assignJobLoads] from the
    two lengths. *)
Lemma assignJobLoads_outcome (employees : list Employee) (queue : list PricedJob) :
  employees <> [] ->
  ((List.length queue <= List.length employees)%nat
   \/ (List.length queue mod List.length employees = 0)%nat ->
   exists jobs, result (assignJobLoads employees queue) = JS.Return jobs)
  /\ (~ ((List.length queue <= List.length employees)%nat
         \/ (List.length queue mod List.length employees = 0)%nat) ->
      result (assignJobLoads employees queue) = JS.Throw UNASSIGNED).
Proof.
  intros Hne.
  assert (HE : (0 < List.length employees)%nat).
  { destruct employees; [congruence | simpl; lia]. }
  rewrite (assignJobLoads_nonempty queue Hne). cbn [result].
  rewrite length_skipn, sortedQueue_length.
  pose proof (chunk_covers (List.length queue) HE) as C.
  destruct (Nat.ltb_spec 0 (List.length queue
                             - chunk (List.length queue) (List.length employees)
                               * List.length employees)) as [H|H]; split.
  - intros G. apply C in G. lia.
  - reflexivity.
  - intros _. eexists. reflexivity.
  - intros G. exfalso. apply G, C. lia.
Qed.

Section PipelineFacts.

Variable parkingRates : list ParkingRate.
Variable fuelPricePerUnit : Q.
Variable number : Type.
Variable toNumber : Q -> number.

(** The pipeline, stage by stage. *)
Lemma jurassicParking_stages (employees : list Employee) (queue : list Vehicle) :
  jurassicParking parkingRates fuelPricePerUnit toNumber employees queue
  = match Array.map (serviceFee parkingRates fuelPricePerUnit) queue with
    | JS.Throw e =>
        {| result := JS.Throw e; cells := (employees, queue); console := [] |}
    | JS.Return servicedQueue =>
        match result (assignJobLoads employees servicedQueue) with
        | JS.Throw e =>
            {| result := JS.Throw e;
               cells := (Array.sort byCommissionPct employees, queue);
               console := [] |}
        | JS.Return jobLoads =>
            {| result :=
                 JS.Return
                   (List.map (pretty toNumber)
                      (List.map fst (List.map commissionOf jobLoads)));
               cells := (Array.sort byCommissionPct employees, queue);
               console := List.concat (List.map snd (List.map commissionOf jobLoads)) |}
        end
    end.
Proof.
  unfold jurassicParking. cbn [calculateServiceFees result cells].
  destruct (Array.map (serviceFee parkingRates fuelPricePerUnit) queue)
    as [servicedQueue|e]; [|reflexivity].
  rewrite (proj1 (assignJobLoads_cells employees servicedQueue)).
  destruct (result (assignJobLoads employees servicedQueue)); reflexivity.
Qed.

(** A vehicle whose size is in no entry of [parkingRates] stops the
    pipeline at the first stage, wherever it stands in the queue: the
    TypeError is raised, no receipt is returned for any vehicle, nothing
    is written to the console, and the array of employees is not sorted. *)
Theorem jurassicParking_unknown_size (employees : list Employee)
  (queue : list Vehicle) :
  (exists c, In c queue
             /\ forall r, In r parkingRates -> rate_size r <> size c) ->
  jurassicParking parkingRates fuelPricePerUnit toNumber employees queue
  = {| result := JS.Throw (JS.TypeError "Cannot read property 'rate' of undefined");
       cells := (employees, queue);
       console := [] |}.
Proof.
  intros (c & Hc & Hno). rewrite jurassicParking_stages.
  destruct (@map_throws_if _ _ (serviceFee parkingRates fuelPricePerUnit) queue c Hc)
    as (e & He).
  { apply parkingRateOf_throws_iff in Hno. destruct Hno as (e & He).
    exists e. unfold serviceFee. rewrite He. reflexivity. }
  rewrite He. apply map_throws in He. destruct He as (x & _ & Hx).
  apply serviceFee_throws in Hx. destruct Hx as [-> _]. reflexivity.
Qed.

(** When every vehicle has a size of [parkingRates] and the pool has an
    employee, the pipeline leaves the caller's queue as it was and the
    array of employees sorted, and it returns, one receipt for each
    vehicle, exactly when the vehicles are no more than the employees
    or a multiple of them; otherwise it throws the sanity-check error of
    [assignJobLoads] and writes nothing. *)
Theorem jurassicParking_known_sizes (employees : list Employee)
  (queue : list Vehicle) :
  (forall c, In c queue ->
             exists r, In r parkingRates /\ rate_size r = size c) ->
  employees <> [] ->
  cells (jurassicParking parkingRates fuelPricePerUnit toNumber employees queue)
  = (Array.sort byCommissionPct employees, queue)
  /\ ((List.length queue <= List.length employees)%nat
      \/ (List.length queue mod List.length employees = 0)%nat ->
      exists receipts,
        result (jurassicParking parkingRates fuelPricePerUnit toNumber
                  employees queue)
        = JS.Return receipts
        /\ List.length receipts = List.length queue)
  /\ (~ ((List.length queue <= List.length employees)%nat
         \/ (List.length queue mod List.length employees = 0)%nat) ->
      result (jurassicParking parkingRates fuelPricePerUnit toNumber
                employees queue)
      = JS.Throw UNASSIGNED
      /\ console (jurassicParking parkingRates fuelPricePerUnit toNumber
                    employees queue) = []).
Proof.
  intros Hsizes Hne. rewrite jurassicParking_stages.
  destruct (@map_returns_if _ _ (serviceFee parkingRates fuelPricePerUnit) queue)
    as (servicedQueue & Hs).
  { intros c Hc. apply serviceFee_returns_if, Hsizes, Hc. }
  rewrite Hs. destruct (serviced_queue _ _ _ Hs) as [Hlen _].
  destruct (assignJobLoads_outcome servicedQueue Hne) as [Hret Hthrow].
  rewrite Hlen in Hret, Hthrow.
  split; [|split].
  - destruct (result (assignJobLoads employees servicedQueue)); reflexivity.
  - intros G. destruct (Hret G) as (jobs & Hj). rewrite Hj. cbn [result].
    eexists. split; [reflexivity|]. rewrite !length_map.
    destruct (assignJobLoads_returned _ _ Hj) as [Hjobs _].
    rewrite <- (length_map job), Hjobs, sortedQueue_length. exact Hlen.
  - intros G. rewrite (Hthrow G). split; reflexivity.
Qed.

(** Every receipt the pipeline returns is the receipt of a vehicle of the
    queue served by an employee of the pool: it carries the vehicle's
    licence plate and fuel added and the employee's name, and its price
    is the vehicle's fuel fee plus parking fee, plus the employee's
    rounded commission on that sum when the percentage is at least 0.
    There is one receipt for each vehicle: the licence plates of the
    receipts are those of the queue, in another order. *)
Theorem jurassicParking_receipts (employees : list Employee)
  (queue : list Vehicle) (receipts : list (object number)) :
  result (jurassicParking parkingRates fuelPricePerUnit toNumber employees queue)
  = JS.Return receipts ->
  List.length receipts = List.length queue
  /\ Permutation (List.map (get "licencePlate") receipts)
       (List.map (fun v => Some (VString (licencePlate v))) queue)
  /\ Forall
       (fun r =>
          exists v e parkingFee total,
            In v queue /\ In e employees
            /\ parkingRateOf parkingRates v = JS.Return parkingFee
            /\ get "licencePlate" r = Some (VString (licencePlate v))
            /\ get "employee" r = Some (VString (name e))
            /\ get "fuelAdded" r
               = Some (VNumber
                         (toNumber
                            (unitsToFuel (calculateUnitsToFuel fuelPricePerUnit v))))
            /\ get "price" r = Some (VNumber (toNumber total))
            /\ (0 <= commissionPct e ->
                total
                == totalFuelPrice (calculateUnitsToFuel fuelPricePerUnit v)
                   + parkingFee
                   + BigNumber.round_half_up 5
                       ((totalFuelPrice (calculateUnitsToFuel fuelPricePerUnit v)
                         + parkingFee)
                        * commissionPct e / 100))
            /\ (commissionPct e < 0 ->
                total
                == totalFuelPrice (calculateUnitsToFuel fuelPricePerUnit v)
                   + parkingFee))
       receipts.
Proof.
  rewrite jurassicParking_stages.
  destruct (Array.map (serviceFee parkingRates fuelPricePerUnit) queue)
    as [servicedQueue|e] eqn:Hs; [|discriminate].
  destruct (result (assignJobLoads employees servicedQueue))
    as [jobLoads|e] eqn:Hj; [|discriminate].
  cbn [result]. intros H. injection H as <-.
  destruct (serviced_queue _ _ _ Hs) as [Hlen Hcar].
  destruct (assignJobLoads_returned _ _ Hj) as [Hjobs Hemp].
  rewrite !map_map.
  assert (Hplates :
            List.map (fun j => get "licencePlate"
                                 (pretty toNumber (fst (commissionOf j)))) jobLoads
            = List.map (fun p => Some (VString (licencePlate (car p))))
                (List.map job jobLoads)).
  { rewrite map_map. apply map_ext. intros j. cbn [pretty get String.eqb].
    rewrite commissionOf_assigned.
    change (("licencePlate" =? "licencePlate")%string) with true.
    reflexivity. }
  split; [|split].
  - rewrite length_map, <- (length_map job), Hjobs, sortedQueue_length.
    exact Hlen.
  - rewrite Hplates, Hjobs, <- Hcar, map_map.
    apply Permutation_map, sort_permutes.
  - apply Forall_forall. intros r Hr. apply in_map_iff in Hr.
    destruct Hr as (j & <- & Hin).
    assert (Hp : In (job j) servicedQueue).
    { apply (sort_same_elements byNetTotal).
      rewrite <- Hjobs. apply in_map, Hin. }
    pose proof Hs as HF. apply map_returns in HF.
    destruct (@Forall2_In_right _ _ _ _ _ _ HF Hp) as (v & Hv & Hvp).
    destruct (serviceFee_returns _ _ _ Hvp) as (_ & Hf & fee & Hfee & Hn).
    rewrite Forall_forall in Hemp. destruct (Hemp j Hin) as [He _].
    exists v, (emp (load j)), fee, (totalToPay (fst (commissionOf j))).
    split; [exact Hv|]. split; [exact He|]. split; [exact Hfee|].
    unfold pretty. rewrite commissionOf_assigned.
    destruct (serviceFee_returns _ _ _ Hvp) as (Hc & _).
    rewrite Hf, Hc.
    split; [reflexivity|]. split; [reflexivity|]. split; [reflexivity|].
    split; [reflexivity|]. split.
    + intros Pos. destruct (commissionOf_nonnegative j Pos) as [T _].
      rewrite T, Hn. reflexivity.
    + intros Neg. destruct (commissionOf_negative j Neg) as [T _].
      rewrite T, Hn. reflexivity.
Qed.

(** The pipeline warns only about employees of the pool whose percentage
    is below 0: with no such employee in the pool the console stays
    empty, whatever the queue and whether the pipeline returns or
    throws. *)
Theorem jurassicParking_warnings (employees : list Employee)
  (queue : list Vehicle) :
  Forall
    (fun w =>
       exists e, In e employees /\ commissionPct e < 0
                 /\ w = CommissionOutOfRange (commissionPct e) (name e))
    (console (jurassicParking parkingRates fuelPricePerUnit toNumber
                employees queue))
  /\ ((forall e, In e employees -> 0 <= commissionPct e) ->
      console (jurassicParking parkingRates fuelPricePerUnit toNumber
                 employees queue) = []).
Proof.
  assert (W : Forall
                (fun w =>
                   exists e, In e employees /\ commissionPct e < 0
                             /\ w = CommissionOutOfRange (commissionPct e) (name e))
                (console (jurassicParking parkingRates fuelPricePerUnit toNumber
                            employees queue))).
  { rewrite jurassicParking_stages.
    destruct (Array.map (serviceFee parkingRates fuelPricePerUnit) queue)
      as [servicedQueue|e]; [|constructor].
    destruct (result (assignJobLoads employees servicedQueue))
      as [jobLoads|e] eqn:Hj; [|constructor].
    cbn [console]. destruct (assignJobLoads_returned _ _ Hj) as [_ Hemp].
    apply Forall_forall. intros w Hw. apply in_concat in Hw.
    destruct Hw as (ws & Hws & Hw). rewrite map_map in Hws.
    apply in_map_iff in Hws. destruct Hws as (j & <- & Hin).
    rewrite Forall_forall in Hemp. destruct (Hemp j Hin) as [He _].
    destruct (Qlt_le_dec (commissionPct (emp (load j))) 0) as [Neg|Pos].
    - destruct (commissionOf_negative j Neg) as [_ T]. rewrite T in Hw.
      destruct Hw as [<-|[]]. exists (emp (load j)). repeat split; assumption.
    - destruct (commissionOf_nonnegative j Pos) as [_ T]. rewrite T in Hw.
      contradiction. }
  split; [exact W|]. intros Hall.
  destruct (console _) as [|w ws]; [reflexivity|].
  inversion W as [|? ? (e & He & Neg & _) _]; subst.
  exfalso. exact (Qlt_not_le _ _ Neg (Hall e He)).
Qed.

End PipelineFacts.

Lemma jurassicParking_unknown_size_witness :
  jurassicParking Fixtures.parkingRates Fixtures.fuelPricePerUnit Qred
    Fixtures.testEmployees [Fixtures.carA; Fixtures.carM]
  = {| result := JS.Throw (JS.TypeError "Cannot read property 'rate' of undefined");
       cells := (Fixtures.testEmployees, [Fixtures.carA; Fixtures.carM]);
       console := [] |}.
Proof.
  apply (@jurassicParking_unknown_size Fixtures.parkingRates
           Fixtures.fuelPricePerUnit Q Qred Fixtures.testEmployees
           [Fixtures.carA; Fixtures.carM]).
  exists Fixtures.carM. split; [right; left; reflexivity|].
  intros r [<-|[<-|[]]]; discriminate.
Defined.

Lemma jurassicParking_known_sizes_witness :
  cells (jurassicParking Fixtures.parkingRates Fixtures.fuelPricePerUnit
           Qred Fixtures.testEmployees Fixtures.testCars)
  = (Array.sort byCommissionPct Fixtures.testEmployees, Fixtures.testCars)
  /\ ((List.length Fixtures.testCars <= List.length Fixtures.testEmployees)%nat
      \/ (List.length Fixtures.testCars mod List.length Fixtures.testEmployees
          = 0)%nat ->
      exists receipts,
        result (jurassicParking Fixtures.parkingRates Fixtures.fuelPricePerUnit
                  Qred Fixtures.testEmployees Fixtures.testCars)
        = JS.Return receipts
        /\ List.length receipts = List.length Fixtures.testCars)
  /\ (~ ((List.length Fixtures.testCars <= List.length Fixtures.testEmployees)%nat
         \/ (List.length Fixtures.testCars mod List.length Fixtures.testEmployees
             = 0)%nat) ->
      result (jurassicParking Fixtures.parkingRates Fixtures.fuelPricePerUnit
                Qred Fixtures.testEmployees Fixtures.testCars)
      = JS.Throw UNASSIGNED
      /\ console (jurassicParking Fixtures.parkingRates Fixtures.fuelPricePerUnit
                    Qred Fixtures.testEmployees Fixtures.testCars) = []).
Proof.
  apply (@jurassicParking_known_sizes Fixtures.parkingRates
           Fixtures.fuelPricePerUnit Q Qred Fixtures.testEmployees
           Fixtures.testCars).
  - intros c [<-|[<-|[<-|[<-|[]]]]].
    + exists {| rate_size := "large"; rate := 35 |}.
      split; [right; left; reflexivity | reflexivity].
    + exists {| rate_size := "small"; rate := 25 |}.
      split; [left; reflexivity | reflexivity].
    + exists {| rate_size := "large"; rate := 35 |}.
      split; [right; left; reflexivity | reflexivity].
    + exists {| rate_size := "large"; rate := 35 |}.
      split; [right; left; reflexivity | reflexivity].
  - discriminate.
Defined.

Lemma jurassicParking_receipts_witness :
  List.length Fixtures.testReceipts = List.length Fixtures.testCars
  /\ Permutation (List.map (get "licencePlate") Fixtures.testReceipts)
       (List.map (fun v => Some (VString (licencePlate v))) Fixtures.testCars)
  /\ Forall
       (fun r =>
          exists v e parkingFee total,
            In v Fixtures.testCars /\ In e Fixtures.testEmployees
            /\ parkingRateOf Fixtures.parkingRates v = JS.Return parkingFee
            /\ get "licencePlate" r = Some (VString (licencePlate v))
            /\ get "employee" r = Some (VString (name e))
            /\ get "fuelAdded" r
               = Some (VNumber
                         (Qred
                            (unitsToFuel (calculateUnitsToFuel Fixtures.fuelPricePerUnit v))))
            /\ get "price" r = Some (VNumber (Qred total))
            /\ (0 <= commissionPct e ->
                total
                == totalFuelPrice (calculateUnitsToFuel Fixtures.fuelPricePerUnit v)
                   + parkingFee
                   + BigNumber.round_half_up 5
                       ((totalFuelPrice (calculateUnitsToFuel Fixtures.fuelPricePerUnit v)
                         + parkingFee)
                        * commissionPct e / 100))
            /\ (commissionPct e < 0 ->
                total
                == totalFuelPrice (calculateUnitsToFuel Fixtures.fuelPricePerUnit v)
                   + parkingFee))
       Fixtures.testReceipts.
Proof.
  apply (@jurassicParking_receipts Fixtures.parkingRates
           Fixtures.fuelPricePerUnit Q Qred Fixtures.testEmployees
           Fixtures.testCars Fixtures.testReceipts).
  vm_compute. reflexivity.
Defined.

(** ** Arrays without equal keys: the order of arrival does not matter *)

Section SortUnique.

Context {A : Type} (key : A -> Q).

(** Two descending arrays with the same elements, no two of which have
    equal keys, are the same array. *)
Lemma sorted_unique (l1 : list A) :
  forall l2,
    StronglySorted (notBelow key) l1 ->
    StronglySorted (notBelow key) l2 ->
    Permutation l1 l2 ->
    (forall a b, In a l1 -> In b l1 -> key a == key b -> a = b) ->
    l1 = l2.
Proof.
  induction l1 as [|x l1 IH]; intros l2 S1 S2 P K.
  - apply Permutation_nil in P. symmetry. exact P.
  - destruct l2 as [|y l2].
    { apply Permutation_sym, Permutation_nil in P. discriminate. }
    inversion S1 as [|? ? S1' H1]; subst.
    inversion S2 as [|? ? S2' H2]; subst.
    rewrite Forall_forall in H1, H2.
    assert (Iy : In y (x :: l1)).
    { apply (Permutation_in _ (Permutation_sym P)). left. reflexivity. }
    assert (Ix : In x (y :: l2)).
    { apply (Permutation_in _ P). left. reflexivity. }
    assert (E : x = y).
    { destruct Iy as [E|Iy]; [exact E|].
      destruct Ix as [E|Ix]; [symmetry; exact E|].
      apply K; [left; reflexivity | right; exact Iy|].
      apply Qle_antisym; [apply (H2 x Ix) | apply (H1 y Iy)]. }
    subst y. f_equal. apply IH; try assumption.
    + apply Permutation_cons_inv with (a := x). exact P.
    + intros a b Ha Hb. apply K; right; assumption.
Qed.

Lemma sort_of_permutation (l l' : list A) :
  Permutation l l' ->
  (forall a b, In a l -> In b l -> key a == key b -> a = b) ->
  Array.sort (descending key) l = Array.sort (descending key) l'.
Proof.
  intros P K. apply sorted_unique.
  - apply sort_sorted.
  - apply sort_sorted.
  - apply Permutation_trans with l; [apply sort_Permutation|].
    apply Permutation_trans with l'; [exact P|].
    apply Permutation_sym, sort_Permutation.
  - intros a b Ha Hb. apply K; apply (sort_In key); assumption.
Qed.

End SortUnique.

(** When no two employees have the same [commissionPct] and no two jobs
    have net totals that the comparator reads as equal (any two different
    jobs are more than [2^-1075] apart), [assignJobLoads] does not depend
    on the order in which the employees and the jobs stand in their
    arrays: the same result, the same error, the same arrays afterwards. *)
Theorem assignJobLoads_order_independent (employees employees' : list Employee)
  (queue queue' : list PricedJob) :
  Permutation employees employees' ->
  Permutation queue queue' ->
  (forall a b, In a employees -> In b employees ->
               commissionPct a == commissionPct b -> a = b) ->
  (forall a b, In a queue -> In b queue ->
               Qabs (netTotal b - netTotal a) <= JS.underflow -> a = b) ->
  assignJobLoads employees' queue' = assignJobLoads employees queue.
Proof.
  intros PE PQ KE KQ.
  assert (W : wellSeparated queue).
  { intros a b Ha Hb.
    destruct (Qlt_le_dec JS.underflow (Qabs (netTotal b - netTotal a))) as [F|L].
    - right. exact F.
    - left. rewrite (KQ a b Ha Hb L). reflexivity. }
  assert (W' : wellSeparated queue').
  { intros a b Ha Hb.
    apply W; apply (Permutation_in _ (Permutation_sym PQ)); assumption. }
  assert (K : forall a b, In a queue -> In b queue ->
                          netTotal a == netTotal b -> a = b).
  { intros a b Ha Hb E. apply (KQ a b Ha Hb).
    assert (Z : netTotal b - netTotal a == 0) by (rewrite E; ring).
    rewrite Z. apply Qlt_le_weak, underflow_positive. }
  unfold assignJobLoads.
  rewrite (@sortedQueue_exact queue W), (@sortedQueue_exact queue' W').
  change byCommissionPct with (descending commissionPct).
  rewrite <- (sort_of_permutation commissionPct PE KE).
  rewrite <- (sort_of_permutation netTotal PQ K).
  reflexivity.
Qed.

Lemma assignJobLoads_order_independent_witness :
  assignJobLoads [Fixtures.alan; Fixtures.ian]
    [Fixtures.jobA; Fixtures.jobD; Fixtures.jobC; Fixtures.jobB]
  = assignJobLoads Fixtures.testEmployees Fixtures.testQueue.
Proof.
  apply (@assignJobLoads_order_independent Fixtures.testEmployees
           [Fixtures.alan; Fixtures.ian] Fixtures.testQueue
           [Fixtures.jobA; Fixtures.jobD; Fixtures.jobC; Fixtures.jobB]).
  - apply perm_swap.
  - apply perm_swap.
  - intros a b [<-|[<-|[]]] [<-|[<-|[]]] H;
      try reflexivity; discriminate H.
  - intros a b [<-|[<-|[<-|[<-|[]]]]] [<-|[<-|[<-|[<-|[]]]]] H;
      try reflexivity; exfalso; apply H; vm_compute; reflexivity.
Defined.

(** ** Who gets which job *)

Lemma handOut_nth (c : nat) (es : list Employee) :
  (0 < c)%nat ->
  forall (q : list PricedJob) (i : nat) (j : PricedJob),
    nth_error q i = Some j ->
    (i < c * List.length es)%nat ->
    exists e,
      nth_error es (i / c) = Some e
      /\ nth_error (handOut c es q) i = Some {| load := loadOf c e; job := j |}.
Proof.
  intros Hc. induction es as [|e es IH]; intros q i j Hj Hi.
  - simpl in Hi. lia.
  - assert (Hlen : (i < List.length q)%nat).
    { apply nth_error_Some. congruence. }
    cbn [handOut].
    destruct (Nat.lt_ge_cases i c) as [L|G].
    + exists e. rewrite Nat.div_small by exact L. split; [reflexivity|].
      rewrite nth_error_app1
        by (rewrite length_map, length_firstn; lia).
      rewrite nth_error_map, nth_error_firstn.
      destruct (Nat.ltb_spec i c) as [_|F]; [|lia].
      rewrite Hj. reflexivity.
    + destruct (IH (skipn c q) (i - c)%nat j) as (e' & He' & Hn).
      * rewrite nth_error_skipn. replace (c + (i - c))%nat with i by lia.
        exact Hj.
      * cbn [List.length] in Hi. lia.
      * exists e'. split.
        -- replace i with ((i - c) + 1 * c)%nat at 1 by lia.
           rewrite Nat.div_add by lia.
           replace ((i - c) / c + 1)%nat with (S ((i - c) / c)) by lia.
           exact He'.
        -- rewrite nth_error_app2
             by (rewrite length_map, length_firstn; lia).
           rewrite length_map, length_firstn.
           replace (i - Nat.min c (List.length q))%nat with (i - c)%nat by lia.
           exact Hn.
Qed.

(** When [assignJobLoads] returns on a nonempty pool and a well separated
    queue, the job at place [i] of the queue sorted by descending
    [netTotal] (jobs of equal [netTotal] in their order of arrival,
    places counted from 0) is given to the employee at place
    [i / chunkSize], rounded down, of the pool sorted by descending
    [commissionPct], and stands at place [i] of the result. *)
Theorem assignJobLoads_job_at (employees : list Employee)
  (queue : list PricedJob) (jobs : list AssignedJob) (i : nat) (j : PricedJob) :
  employees <> [] ->
  wellSeparated queue ->
  result (assignJobLoads employees queue) = JS.Return jobs ->
  nth_error (Array.sort (descending netTotal) queue) i = Some j ->
  exists e,
    nth_error (Array.sort byCommissionPct employees)
      (i / chunk (List.length queue) (List.length employees))
    = Some e
    /\ nth_error jobs i
       = Some {| load :=
                   {| emp := e;
                      numJobs := chunkSizeOf (JS.of_nat (List.length queue))
                                   (JS.of_nat (List.length employees)) |};
                 job := j |}.
Proof.
  intros Hne W H Hj. rewrite <- (@sortedQueue_exact queue W) in Hj.
  assert (HE : (0 < List.length employees)%nat).
  { destruct employees; [congruence | simpl; lia]. }
  pose proof (chunk_positive (List.length queue) HE) as Hc.
  rewrite (chunkSizeOf_spec (List.length queue) HE).
  rewrite (assignJobLoads_nonempty queue Hne) in H. cbn [result] in H.
  rewrite length_skipn, sortedQueue_length in H.
  destruct (Nat.ltb_spec 0 (List.length queue
                             - chunk (List.length queue) (List.length employees)
                               * List.length employees)) as [L|L];
    [discriminate|].
  injection H as <-.
  assert (Hi : (i < List.length queue)%nat).
  { rewrite <- (sortedQueue_length queue). apply nth_error_Some. congruence. }
  apply handOut_nth; [lia | exact Hj|].
  rewrite sortedEmployees_length. lia.
Qed.

Lemma wellSeparated_testQueue : wellSeparated Fixtures.testQueue.
Proof.
  intros a b [<-|[<-|[<-|[<-|[]]]]] [<-|[<-|[<-|[<-|[]]]]];
    first [ left; reflexivity | right; vm_compute; reflexivity ].
Qed.

Lemma assignJobLoads_job_at_witness :
  exists e,
    nth_error (Array.sort byCommissionPct Fixtures.testEmployees)
      (2 / chunk (List.length Fixtures.testQueue)
             (List.length Fixtures.testEmployees))
    = Some e
    /\ nth_error Fixtures.testAssignment 2
       = Some {| load :=
                   {| emp := e;
                      numJobs := chunkSizeOf
                                   (JS.of_nat (List.length Fixtures.testQueue))
                                   (JS.of_nat (List.length Fixtures.testEmployees)) |};
                 job := Fixtures.jobC |}.
Proof.
  apply (@assignJobLoads_job_at Fixtures.testEmployees Fixtures.testQueue
           Fixtures.testAssignment 2 Fixtures.jobC).
  - discriminate.
  - exact wellSeparated_testQueue.
  - vm_compute. reflexivity.
  - reflexivity.
Defined.
